(** * Q-learning robot on a 6x6 terrain: a shallow embedding of [qlearning.py]

    The class [Robot] is embedded function by function.  Python integers are
    [Z]; the Q-values, which Python holds as ints or floats, live in an
    abstract type [num] carrying Python's arithmetic and comparisons; the
    module-level random generator is an explicit state that every drawing
    function threads; Python exceptions and unbounded [while] loops show up
    in the result type [res]. *)

From stdpp Require Import gmap strings list sorting.
From Stdlib Require Import QArith Floats.
Open Scope Z_scope.

(** ** Results of Python computations *)

Inductive exn := IndexError | ValueError | KeyError.

(** [OutOfFuel] is not a Python outcome: it marks a [while] loop of the source
    that was still running when the model's step budget ran out. *)
Inductive res (A : Type) :=
  | Ok (a : A)
  | Raise (e : exn)
  | OutOfFuel.
Arguments Ok {A} a.
Arguments Raise {A} e.
Arguments OutOfFuel {A}.

#[global] Instance res_ret : MRet res := λ A, Ok.
#[global] Instance res_bind : MBind res := λ A B f m,
  match m with
  | Ok a => f a
  | Raise e => Raise e
  | OutOfFuel => OutOfFuel
  end.

(** ** Python sequences *)

(** [range(n)] *)
Definition range (n : Z) : list Z := seqZ 0 n.

(** [l[i]], with Python's negative indices and its [IndexError]. *)
Definition py_index {A} (l : list A) (i : Z) : res A :=
  let n := Z.of_nat (length l) in
  let j := if decide (i < 0) then i + n else i in
  if decide (0 ≤ j < n)
  then from_option Ok (Raise IndexError) (l !! Z.to_nat j)
  else Raise IndexError.

(** [l[i] = v] *)
Definition py_setitem {A} (l : list A) (i : Z) (v : A) : res (list A) :=
  let n := Z.of_nat (length l) in
  let j := if decide (i < 0) then i + n else i in
  if decide (0 ≤ j < n) then Ok (<[Z.to_nat j := v]> l) else Raise IndexError.

(** [d[k]] on a dict *)
Definition py_getitem `{Countable K} {V} (d : gmap K V) (k : K) : res V :=
  from_option Ok (Raise KeyError) (d !! k).

(** [enumerate(l)] *)
Definition enumerate {A} (l : list A) : list (Z * A) :=
  imap (λ i x, (Z.of_nat i, x)) l.

(** ** The terrain and the tables built by [Robot.__init__] *)

Definition terrain : list (list string) :=
  [ ["W"; "M"; "M"; "L"; "L"; "W"];
    ["W"; "W"; "L"; "M"; "L"; "L"];
    ["M"; "L"; "L"; "M"; "L"; "M"];
    ["M"; "L"; "L"; "L"; "L"; "L"];
    ["M"; "L"; "M"; "L"; "M"; "L"];
    ["E"; "W"; "W"; "W"; "W"; "W"] ]%string.

(** [self.actions] *)
Definition actions : list string := ["up"; "down"; "left"; "right"]%string.

(** [{(i, j): i * 6 + j for i in range(6) for j in range(6)}] *)
Definition state_indices : gmap (Z * Z) Z :=
  list_to_map (i ← range 6; j ← range 6; [((i, j), i * 6 + j)]).

Definition start_state : Z * Z := (0, 3).
Definition end_state : Z * Z := (5, 0).

Definition rewards : gmap string Z :=
  list_to_map [("M", -300); ("W", -500); ("L", 10); ("E", 1000)]%string.

(** [[[self.rewards.get(self.terrain[i][j], 0) for j in range(6)]
      for i in range(6)]] *)
Definition R_matrix_init : res (list (list Z)) :=
  mapM (λ i, mapM (λ j, trow ← py_index terrain i;
                        t ← py_index trow j;
                        Ok (default 0 (rewards !! t))) (range 6)) (range 6).

Definition R_matrix : list (list Z) :=
  [ [-500; -300; -300;   10;   10; -500];
    [-500; -500;   10; -300;   10;   10];
    [-300;   10;   10; -300;   10; -300];
    [-300;   10;   10;   10;   10;   10];
    [-300;   10; -300;   10; -300;   10];
    [1000; -500; -500; -500; -500; -500] ].

(** [self.R_matrix[p[0]][p[1]]] *)
Definition R_at (p : Z * Z) : res Z :=
  R_row ← py_index R_matrix p.1; py_index R_row p.2.

(** ** State indexing and the transition function *)

(** The decoding [state_index // 6, state_index % 6] that the source writes
    inline wherever it needs the position of a state. *)
Definition decode (state_index : Z) : Z * Z :=
  (state_index `div` 6, state_index `mod` 6).

Definition in_grid (p : Z * Z) : Prop := 0 ≤ p.1 ≤ 5 ∧ 0 ≤ p.2 ≤ 5.

(** The [if]/[elif] chain of [get_next_state] on the decoded position. *)
Definition move (p : Z * Z) (action_index : Z) : Z * Z :=
  let '(row, col) := p in
  if decide (action_index = 0) then (row - 1, col)
  else if decide (action_index = 1) then (row + 1, col)
  else if decide (action_index = 2) then (row, col - 1)
  else if decide (action_index = 3) then (row, col + 1)
  else (row, col).

Definition get_next_state (state_index action_index : Z) : Z :=
  default state_index (state_indices !! move (decode state_index) action_index).

Definition get_possible_actions (state_index : Z) : list Z :=
  let '(row, col) := decode state_index in
  (if decide (row > 0) then [0] else []) ++
  (if decide (row < 5) then [1] else []) ++
  (if decide (col > 0) then [2] else []) ++
  (if decide (col < 5) then [3] else []).

(** ** Python numbers *)

(** The Q-values, [epsilon], [alpha] and [gamma] are Python numbers (ints, or
    floats once a float has entered a computation).  [num] stands for them,
    with Python's [+], [-], [*], [<] and [==]; [x > y] is [num_lt y x], and
    [of_int] reads an int (a reward, the literal [0]) as a number.  The
    operations are total, as they are on numbers of one kind; the
    [OverflowError] that Python raises when an int too large for a float
    meets a float is not modelled. *)
Class PyNum (num : Type) := {
  num_add : num → num → num;
  num_sub : num → num → num;
  num_mul : num → num → num;
  num_lt : num → num → bool;
  num_eq : num → num → bool;
  of_int : Z → num;
}.

Declare Scope num_scope.
Delimit Scope num_scope with num.
Infix "+" := num_add : num_scope.
Infix "-" := num_sub : num_scope.
Infix "*" := num_mul : num_scope.

(** Numbers compared by [<] and [==] as a total order; Python ints and
    floats other than NaN are ordered this way. *)
Class PyNumOrder (num : Type) `{PyNum num} : Prop := {
  num_lt_asym : ∀ x y, num_lt x y = true → num_lt y x = false;
  num_lt_cotrans : ∀ x y z,
    num_lt x z = true → num_lt x y = false → num_lt y z = true;
  num_eq_spec : ∀ x y, num_eq x y = negb (num_lt x y) && negb (num_lt y x);
}.

(** ** The random generator *)

(** The state of the [random] module.  [random_uniform] is
    [random.uniform(0, 1)]; [random_below n] is the draw of an index below
    [n] on which [random.choice] relies. *)
Class RandomSource (num rng : Type) := {
  random_uniform : rng → num * rng;
  random_below : nat → rng → nat * rng;
}.

Class RandomSourceLaws (num rng : Type) `{PyNum num, RandomSource num rng} : Prop := {
  random_below_lt : ∀ n g, (0 < n)%nat → ((random_below n g).1 < n)%nat;
  random_uniform_nonneg : ∀ g, num_lt (random_uniform g).1 (of_int 0) = false;
}.

(** How one pass through the body of a [while] loop ends. *)
Inductive loop_exit (T : Type) := Continue (s : T) | Break (s : T).
Arguments Continue {T} s.
Arguments Break {T} s.

(** A [while] loop whose body may [break]; [fuel] bounds the iterations of
    the model. *)
Fixpoint while_loop {T} (fuel : nat) (cond : T → res bool)
    (body : T → res (loop_exit T)) (st : T) : res T :=
  c ← cond st;
  if c : bool then
    match fuel with
    | O => OutOfFuel
    | S fuel =>
      r ← body st;
      match r with
      | Break st => Ok st
      | Continue st => while_loop fuel cond body st
      end
    end
  else Ok st.

Section Robot.
Context {num rng : Type} `{PyNum num} `{RandomSource num rng}.

(** [random.choice(seq)] *)
Definition random_choice {A} (seq : list A) (g : rng) : res (A * rng) :=
  match seq with
  | [] => Raise IndexError
  | _ => let '(i, g) := random_below (length seq) g in
         x ← from_option Ok (Raise IndexError) (seq !! i); Ok (x, g)
  end.

(** [max(l)]: the first of the greatest items; [ValueError] on an empty
    sequence. *)
Definition py_max (l : list num) : res num :=
  match l with
  | [] => Raise ValueError
  | x :: l => Ok (foldl (λ m y, if num_lt m y then y else m) x l)
  end.

(** [max(l, key=key)]: the first item whose key is greatest. *)
Fixpoint max_key_from {A} (key : A → res num) (best : A) (best_key : num)
    (l : list A) : res A :=
  match l with
  | [] => Ok best
  | x :: l => k ← key x;
              if num_lt best_key k then max_key_from key x k l
              else max_key_from key best best_key l
  end.

Definition py_max_key {A} (key : A → res num) (l : list A) : res A :=
  match l with
  | [] => Raise ValueError
  | x :: l => k ← key x; max_key_from key x k l
  end.

(** ** Monte Carlo exploration *)

(** The local dict [actions] of [get_next_state_mc], in insertion order. *)
Definition mc_actions : list (string * (Z * Z)) :=
  [("up", (-1, 0)); ("down", (1, 0)); ("left", (0, -1)); ("right", (0, 1))]%string.

Definition mc_possible_actions (current_state : Z * Z) : list string :=
  let '(row, col) := current_state in
  (filter (λ a : string * (Z * Z),
             0 ≤ row + a.2.1 < 6 ∧ 0 ≤ col + a.2.2 < 6) mc_actions).*1.

Definition get_next_state_mc (current_state : Z * Z) (g : rng) : res (Z * Z * rng) :=
  let '(row, col) := current_state in
  let possible_actions := mc_possible_actions current_state in
  match possible_actions with
  | [] => Ok (current_state, g)
  | _ => '(chosen_action, g) ← random_choice possible_actions g;
         '(dr, dc) ← py_getitem (list_to_map mc_actions : gmap string (Z * Z)) chosen_action;
         Ok ((row + dr, col + dc), g)
  end.

(** [highest_reward]: [float('-inf')] until a walk has been kept, the int
    total of the kept walk afterwards. *)
Inductive reward_val := NegInf | Fin (z : Z).

(** [total_reward > highest_reward] *)
Definition reward_gt (total_reward : Z) (highest_reward : reward_val) : bool :=
  match highest_reward with
  | NegInf => true
  | Fin h => bool_decide (h < total_reward)
  end.

(** [a <= b] on the values [highest_reward] takes. *)
Definition reward_le (a b : reward_val) : Prop :=
  match a, b with
  | NegInf, _ => True
  | Fin _, NegInf => False
  | Fin x, Fin y => x ≤ y
  end.

(** One walk: the inner [while] of [monte_carlo_exploration].  The loop has
    no step cap in the source; [fuel] bounds the iterations of the model. *)
Fixpoint mc_walk (fuel : nat) (current_state : Z * Z) (total_reward : Z)
    (route : list (Z * Z)) (g : rng) : res (Z * list (Z * Z) * rng) :=
  if decide (current_state = end_state) then Ok (total_reward, route, g)
  else match fuel with
  | O => OutOfFuel
  | S fuel =>
    '(next_state, g) ← get_next_state_mc current_state g;
    r ← R_at next_state;
    let total_reward := total_reward + r in
    let route := route ++ [next_state] in
    let current_state := next_state in
    if decide (current_state = end_state) then Ok (total_reward, route, g)
    else mc_walk fuel current_state total_reward route g
  end.

Record mc_state := MCState {
  best_route : option (list (Z * Z));
  highest_reward : reward_val;
  mc_rng : rng;
}.

(** The body of the [for simulation in range(num_simulations)] loop. *)
Definition mc_simulation (fuel : nat) (st : mc_state) : res mc_state :=
  '(total_reward, route, g) ← mc_walk fuel start_state 0 [start_state] (mc_rng st);
  if reward_gt total_reward (highest_reward st)
  then Ok (MCState (Some route) (Fin total_reward) g)
  else Ok (MCState (best_route st) (highest_reward st) g).

Fixpoint mc_loop (fuel : nat) (n : nat) (st : mc_state) : res mc_state :=
  match n with
  | O => Ok st
  | S n => st ← mc_simulation fuel st; mc_loop fuel n st
  end.

Definition monte_carlo_exploration (fuel : nat) (num_simulations : Z) (g : rng)
    : res mc_state :=
  mc_loop fuel (Z.to_nat num_simulations) (MCState None NegInf g).

(** ** Epsilon-greedy policy and Q-learning *)

(** [[[0 for _ in range(4)] for _ in range(36)]]: the rows are 36 distinct
    lists, so a store into one row leaves the others as they are. *)
Definition Q_matrix_init : list (list num) :=
  replicate 36 (replicate 4 (of_int 0)).

Definition get_next_state_eg (Q_matrix : list (list num)) (state_index : Z)
    (epsilon : num) (g : rng) : res (Z * Z * rng) :=
  let '(u, g) := random_uniform g in
  '(action_index, g) ←
    (if num_lt u epsilon then random_choice (range 4) g
     else
       q_row ← py_index Q_matrix state_index;
       max_q_value ← py_max q_row;
       let best_actions :=
         (filter (λ aq : Z * num, num_eq aq.2 max_q_value = true) (enumerate q_row)).*1 in
       random_choice (match best_actions with [] => range 4 | _ => best_actions end) g);
  let next_state_index := get_next_state state_index action_index in
  Ok (next_state_index, action_index, g).

(** [Q_matrix[s][a] = v] *)
Definition Q_store (Q_matrix : list (list num)) (s a : Z) (v : num)
    : res (list (list num)) :=
  q_row ← py_index Q_matrix s;
  q_row ← py_setitem q_row a v;
  py_setitem Q_matrix s q_row.

(** The right-hand side of the Q-learning update. *)
Definition q_increment (alpha gamma : num) (reward : Z)
    (max_next_q_value current_q_value : num) : num :=
  (alpha * (of_int reward + gamma * max_next_q_value - current_q_value))%num.

(** One pass through the body of the [for step in range(max_steps)] loop,
    after its test for the end state. *)
Definition q_step (epsilon alpha gamma : num) (Q_matrix : list (list num))
    (current_state_index : Z) (g : rng) : res (list (list num) * Z * rng) :=
  '(next_state_index, action_index, g) ←
    get_next_state_eg Q_matrix current_state_index epsilon g;
  reward ← R_at (decode next_state_index);
  next_q_values ← py_index Q_matrix next_state_index;
  max_next_q_value ←
    match next_q_values with [] => Ok (of_int 0) | _ => py_max next_q_values end;
  q_row ← py_index Q_matrix current_state_index;
  current_q_value ← py_index q_row action_index;
  Q_matrix ← Q_store Q_matrix current_state_index action_index
    (current_q_value + q_increment alpha gamma reward max_next_q_value current_q_value)%num;
  Ok (Q_matrix, next_state_index, g).

Fixpoint q_episode (steps : nat) (end_state_index : Z) (epsilon alpha gamma : num)
    (Q_matrix : list (list num)) (current_state_index : Z) (g : rng)
    : res (list (list num) * rng) :=
  match steps with
  | O => Ok (Q_matrix, g)
  | S steps =>
    if decide (current_state_index = end_state_index) then Ok (Q_matrix, g)
    else
      '(Q_matrix, next_state_index, g) ←
        q_step epsilon alpha gamma Q_matrix current_state_index g;
      q_episode steps end_state_index epsilon alpha gamma Q_matrix next_state_index g
  end.

Fixpoint q_episodes (episodes : nat) (end_state_index : Z) (epsilon alpha gamma : num)
    (max_steps : Z) (Q_matrix : list (list num)) (g : rng)
    : res (list (list num) * rng) :=
  match episodes with
  | O => Ok (Q_matrix, g)
  | S episodes =>
    '(current_state_index, g) ←
      random_choice (filter (λ state, state ≠ end_state_index) (range 36)) g;
    '(Q_matrix, g) ← q_episode (Z.to_nat max_steps) end_state_index
                       epsilon alpha gamma Q_matrix current_state_index g;
    q_episodes episodes end_state_index epsilon alpha gamma max_steps Q_matrix g
  end.

Definition q_learning (num_episodes : Z) (epsilon alpha gamma : num) (max_steps : Z)
    (Q_matrix : list (list num)) (g : rng) : res (list (list num) * rng) :=
  end_state_index ← py_getitem state_indices end_state;
  q_episodes (Z.to_nat num_episodes) end_state_index epsilon alpha gamma
    max_steps Q_matrix g.

(** ** Greedy path *)

Record greedy_state := GreedyState {
  current_state_index : Z;
  path : list (Z * Z);
  total_reward : Z;
  stdout : list string;
}.

(** The candidates of one iteration:
    [[(action, self.get_next_state(current_state_index, action))
      for action in self.get_possible_actions(current_state_index)]]. *)
Definition greedy_candidates (state_index : Z) : list (Z * Z) :=
  (λ action, (action, get_next_state state_index action)) <$>
    get_possible_actions state_index.

(** The rest of the loop body, from [if not possible_actions] on. *)
Definition greedy_select (q_values : list num) (possible_actions : list (Z * Z))
    (st : greedy_state) : res (loop_exit greedy_state) :=
  match possible_actions with
  | [] =>
    Ok (Break (GreedyState (current_state_index st) (path st) (total_reward st)
                 (stdout st ++ ["No unvisited actions available, breaking out."%string])))
  | _ =>
    '(best_action, best_next_state_index) ←
      py_max_key (λ action : Z * Z, py_index q_values action.1) possible_actions;
    let next_state := decode best_next_state_index in
    r ← R_at next_state;
    Ok (Continue (GreedyState best_next_state_index (path st ++ [next_state])
                    (total_reward st + r) (stdout st)))
  end.

Definition greedy_body (Q_matrix : list (list num)) (st : greedy_state)
    : res (loop_exit greedy_state) :=
  q_values ← py_index Q_matrix (current_state_index st);
  greedy_select q_values (greedy_candidates (current_state_index st)) st.

(** [while current_state_index != self.state_indices[self.end_state]] *)
Definition greedy_cond (st : greedy_state) : res bool :=
  end_state_index ← py_getitem state_indices end_state;
  Ok (bool_decide (current_state_index st ≠ end_state_index)).

(** The loop has no step cap in the source. *)
Definition greedy_path (fuel : nat) (Q_matrix : list (list num)) : res greedy_state :=
  start_state_index ← py_getitem state_indices start_state;
  while_loop fuel greedy_cond (greedy_body Q_matrix)
    (GreedyState start_state_index [start_state] 0 []).

End Robot.

(** ** Vocabulary of the properties *)

(** The sum of the rewards of the cells of a list, one summand per
    occurrence. *)
Fixpoint route_reward (cells : list (Z * Z)) : res Z :=
  match cells with
  | [] => Ok 0
  | p :: cells => r ← R_at p; t ← route_reward cells; Ok (r + t)
  end.

(** The choice the simulation loop makes after each walk, on its own. *)
Definition keep_better (b : option (list (Z * Z)) * reward_val)
    (w : Z * list (Z * Z)) : option (list (Z * Z)) * reward_val :=
  if reward_gt w.1 b.2 then (Some w.2, Fin w.1) else b.

(** The entry of the table at row [s], column [a]. *)
Definition Q_get {num} (Q_matrix : list (list num)) (s a : nat) : option num :=
  Q_matrix !! s ≫= λ q_row, q_row !! a.

(** The shape [__init__] gives the table: 36 rows of 4 entries. *)
Definition wf_Q {num} (Q_matrix : list (list num)) : Prop :=
  length Q_matrix = 36%nat ∧ Forall (λ q_row, length q_row = 4%nat) Q_matrix.

(** The change of the state index that an action makes when its move
    stays on the grid. *)
Definition action_offset (action_index : Z) : Z :=
  if decide (action_index = 0) then -6
  else if decide (action_index = 1) then 6
  else if decide (action_index = 2) then -1
  else if decide (action_index = 3) then 1
  else 0.

(** The action that undoes an action: up and down, left and right. *)
Definition opposite (action_index : Z) : Z :=
  if decide (action_index = 0) then 1
  else if decide (action_index = 1) then 0
  else if decide (action_index = 2) then 3
  else if decide (action_index = 3) then 2
  else action_index.

(** Two cells one step apart. *)
Definition adjacent (p q : Z * Z) : Prop :=
  Z.abs (p.1 - q.1) + Z.abs (p.2 - q.2) = 1.

(** [cells] are entered one after the other from [p]: each step leaves a
    cell that is not the end state and enters an adjacent cell of the
    grid. *)
Fixpoint steps_from (p : Z * Z) (cells : list (Z * Z)) : Prop :=
  match cells with
  | [] => True
  | q :: cells => p ≠ end_state ∧ adjacent p q ∧ in_grid q ∧ steps_from q cells
  end.

(** The number of steps between a cell of the grid and the end state. *)
Definition steps_to_end (p : Z * Z) : Z := Z.abs (5 - p.1) + Z.abs p.2.

Section Vocabulary.
Context {num rng : Type} `{PyNum num} `{RandomSource num rng}.

(** The walks of [n] simulations in the order they are run, each with its
    total reward, and the generator left after the last one. *)
Fixpoint mc_walks (fuel : nat) (n : nat) (g : rng)
    : res (list (Z * list (Z * Z)) * rng) :=
  match n with
  | O => Ok ([], g)
  | S n => '(t, route, g) ← mc_walk fuel start_state 0 [start_state] g;
           '(ws, g) ← mc_walks fuel n g;
           Ok ((t, route) :: ws, g)
  end.

End Vocabulary.

(** ** Concrete numbers and a scripted generator

    Exact rationals are one reading of [num]; a generator that replays a
    list of raw draws is one reading of the random source.  The examples
    below run the model on them. *)

#[global] Instance Q_num : PyNum Q := {|
  num_add := Qplus;
  num_sub := Qminus;
  num_mul := Qmult;
  num_lt x y := negb (Qle_bool y x);
  num_eq := Qeq_bool;
  of_int := inject_Z;
|}.

(** Each draw consumes the head of the script; an exhausted script keeps
    answering with draw [0]. *)
#[global] Instance script_source : RandomSource Q (list nat) := {|
  random_uniform g := (Z.of_nat (hd 0 g `mod` 100)%nat # 100, tl g);
  random_below n g := ((hd 0 g `mod` n)%nat, tl g);
|}.

(** IEEE 754 binary64 numbers, the floats of CPython, are another reading
    of [num]. *)
Definition float_of_int (z : Z) : float :=
  match z with
  | Z0 => 0%float
  | Zpos _ => PrimFloat.of_uint63 (Uint63.of_Z z)
  | Zneg p => PrimFloat.opp (PrimFloat.of_uint63 (Uint63.of_Z (Zpos p)))
  end.

#[global] Instance float_num : PyNum float := {|
  num_add := PrimFloat.add;
  num_sub := PrimFloat.sub;
  num_mul := PrimFloat.mul;
  num_lt := PrimFloat.ltb;
  num_eq := PrimFloat.eqb;
  of_int := float_of_int;
|}.

(** A scripted generator whose uniform draws are taken from a fixed table. *)
Definition float_draws : list float := [0; 0.25; 0.5; 0.75]%float.

#[global] Instance float_script_source : RandomSource float (list nat) := {|
  random_uniform g := (nth (hd 0 g `mod` 4)%nat float_draws 0%float, tl g);
  random_below n g := ((hd 0 g `mod` n)%nat, tl g);
|}.

(** The nearest binary64 number to 0.9, which is what Python reads [0.9] as. *)
Definition float_0_9 : float := 0x1.ccccccccccccdp-1%float.

(** The table of the update example, in floats. *)
Definition demo_Q_float : list (list float) :=
  <[3%nat := [0; 0; 0; 4]%float]> (<[4%nat := [20; 0; 0; 0]%float]> Q_matrix_init).

(** A table with a single best action at state 3 (go right, to state 4) and
    a row of state 4 whose maximum is 20. *)
Definition demo_Q : list (list Q) :=
  <[3%nat := [0; 0; 0; 4]%Q]> (<[4%nat := [20; 0; 0; 0]%Q]> Q_matrix_init).

(** Two walks from the start to the end state: along the top row and down
    the left column, then through row 1 and down the left column. *)
Definition demo_script : list nat :=
  [1; 1; 1; 0; 1; 1; 1; 1; 0; 2; 2; 2; 1; 1; 1; 1]%nat.

(** A table on which the greedy path goes down column 3 and then left
    along the bottom row. *)
Definition demo_Q_trained : list (list Q) := replicate 36 [0; 1; 1; 0]%Q.

(** * Properties *)

(** Unfold the plumbing of [res] and nothing else. *)
Ltac res_simpl := cbn [mbind res_bind mret res_ret from_option] in *.

(** ** State indexing *)

Lemma state_indices_lookup row col :
  state_indices !! (row, col) =
  if bool_decide (0 ≤ row < 6 ∧ 0 ≤ col < 6) then Some (row * 6 + col) else None.
Proof.
  case_bool_decide as Hin.
  - apply elem_of_list_to_map.
    + apply (bool_decide_unpack (NoDup _)). vm_compute. reflexivity.
    + apply list_elem_of_bind. exists row. split; [|apply elem_of_seqZ; lia].
      apply list_elem_of_bind. exists col. split; [|apply elem_of_seqZ; lia].
      by apply list_elem_of_singleton.
  - apply not_elem_of_list_to_map_1. intros Hkey. apply Hin.
    apply list_elem_of_fmap in Hkey as [[[i j] v] [Hij Hkey]].
    simpl in Hij. injection Hij as -> ->.
    apply list_elem_of_bind in Hkey as [i' [Hkey Hi]].
    apply list_elem_of_bind in Hkey as [j' [Hkey Hj]].
    apply list_elem_of_singleton in Hkey. injection Hkey as -> -> _.
    apply elem_of_seqZ in Hi, Hj. lia.
Qed.

Lemma decode_encode row col :
  0 ≤ col < 6 → decode (row * 6 + col) = (row, col).
Proof.
  intros Hc. unfold decode. f_equal; Z.div_mod_to_equations; lia.
Qed.

Lemma decode_in_grid s : 0 ≤ s ≤ 35 → in_grid (decode s).
Proof.
  intros Hs. unfold in_grid, decode. simpl. Z.div_mod_to_equations. lia.
Qed.

Lemma encode_decode s :
  (decode s).1 * 6 + (decode s).2 = s.
Proof. unfold decode. simpl. Z.div_mod_to_equations. lia. Qed.

Lemma R_matrix_built : R_matrix_init = Ok R_matrix.
Proof. vm_compute. reflexivity. Qed.

Lemma end_state_index_eq : py_getitem state_indices end_state = Ok 30.
Proof. unfold py_getitem, end_state. by rewrite state_indices_lookup. Qed.

Lemma start_state_index_eq : py_getitem state_indices start_state = Ok 3.
Proof. unfold py_getitem, start_state. by rewrite state_indices_lookup. Qed.

(** C2: positions of the grid and the indices 0..35 are in bijection. The
    index of (row, col) in [state_indices] is row * 6 + col, it lies in
    0..35 and decodes to (row, col) again; and the decoded position of an
    index i in 0..35 is a key of [state_indices] whose index is i. *)
Theorem state_index_bijection row col i :
  0 ≤ row ≤ 5 → 0 ≤ col ≤ 5 → 0 ≤ i ≤ 35 →
  (state_indices !! (row, col) = Some (row * 6 + col) ∧
   0 ≤ row * 6 + col ≤ 35 ∧
   decode (row * 6 + col) = (row, col)) ∧
  (in_grid (decode i) ∧ state_indices !! decode i = Some i).
Proof.
  intros Hrow Hcol Hi. repeat split.
  - rewrite state_indices_lookup. rewrite bool_decide_true; [done | lia].
  - lia.
  - lia.
  - apply decode_encode. lia.
  - apply (decode_in_grid i Hi).
  - apply (decode_in_grid i Hi).
  - apply (decode_in_grid i Hi).
  - apply (decode_in_grid i Hi).
  - pose proof (decode_in_grid i Hi) as [Hr Hc].
    pose proof (encode_decode i) as He.
    destruct (decode i) as [r c]; cbn [fst snd] in *.
    rewrite state_indices_lookup. rewrite bool_decide_true; [congruence | lia].
Qed.

Lemma state_index_bijection_witness :
  (state_indices !! (3, 4) = Some (3 * 6 + 4) ∧
   0 ≤ 3 * 6 + 4 ≤ 35 ∧
   decode (3 * 6 + 4) = (3, 4)) ∧
  (in_grid (decode 17) ∧ state_indices !! decode 17 = Some 17).
Proof. apply (state_index_bijection 3 4 17); lia. Defined.

(** ** Transitions *)

Lemma get_next_state_eq s a :
  get_next_state s a =
  if bool_decide (0 ≤ (move (decode s) a).1 < 6 ∧ 0 ≤ (move (decode s) a).2 < 6)
  then (move (decode s) a).1 * 6 + (move (decode s) a).2
  else s.
Proof.
  unfold get_next_state. destruct (move (decode s) a) as [r c] eqn:Hm.
  rewrite state_indices_lookup. cbn [fst snd]. by case_bool_decide.
Qed.

Lemma move_cases s a :
  0 ≤ a ≤ 3 →
  (a = 0 ∧ move (decode s) a = (s `div` 6 - 1, s `mod` 6)) ∨
  (a = 1 ∧ move (decode s) a = (s `div` 6 + 1, s `mod` 6)) ∨
  (a = 2 ∧ move (decode s) a = (s `div` 6, s `mod` 6 - 1)) ∨
  (a = 3 ∧ move (decode s) a = (s `div` 6, s `mod` 6 + 1)).
Proof.
  intros Ha. unfold move, decode.
  repeat case_decide; subst; try lia; auto.
Qed.

Lemma move_other s a : ¬ 0 ≤ a ≤ 3 → move (decode s) a = decode s.
Proof.
  intros Ha. unfold move, decode. repeat case_decide; try lia. done.
Qed.

(** C3: from a state index in 0..35, every action in 0..3 leads to a state
    index whose decoded row and column are in 0..5; and when the position
    moved to lies outside the grid, the state index returned is the input
    one. *)
Theorem get_next_state_bounded s a :
  0 ≤ s ≤ 35 → 0 ≤ a ≤ 3 →
  in_grid (decode (get_next_state s a)) ∧
  (¬ in_grid (move (decode s) a) → get_next_state s a = s).
Proof.
  intros Hs Ha. rewrite get_next_state_eq. split.
  - case_bool_decide as Hin; [|by apply decode_in_grid].
    destruct (move (decode s) a) as [r c]; cbn [fst snd] in *.
    rewrite decode_encode by lia. unfold in_grid; cbn [fst snd]; lia.
  - intros Hout. rewrite bool_decide_false; [done|].
    intros Hin. apply Hout. unfold in_grid. lia.
Qed.

Lemma get_next_state_bounded_witness :
  in_grid (decode (get_next_state 5 3)) ∧
  (¬ in_grid (move (decode 5) 3) → get_next_state 5 3 = 5).
Proof. apply (get_next_state_bounded 5 3); lia. Defined.

Lemma elem_of_get_possible_actions s a :
  a ∈ get_possible_actions s ↔
  (a = 0 ∧ s `div` 6 > 0) ∨ (a = 1 ∧ s `div` 6 < 5) ∨
  (a = 2 ∧ s `mod` 6 > 0) ∨ (a = 3 ∧ s `mod` 6 < 5).
Proof.
  unfold get_possible_actions, decode.
  rewrite !elem_of_app.
  repeat case_decide; rewrite ?list_elem_of_singleton, ?elem_of_nil; lia.
Qed.

Lemma get_possible_actions_range s a :
  a ∈ get_possible_actions s → 0 ≤ a ≤ 3.
Proof. rewrite elem_of_get_possible_actions. lia. Qed.

Lemma get_possible_actions_moves s a :
  0 ≤ s ≤ 35 →
  a ∈ get_possible_actions s ↔ get_next_state s a ≠ s.
Proof.
  intros Hs. rewrite elem_of_get_possible_actions, get_next_state_eq.
  destruct (decide (0 ≤ a ≤ 3)) as [Ha|Ha].
  - destruct (move_cases s a Ha) as [[-> ->]|[[-> ->]|[[-> ->]|[-> ->]]]];
      cbn [fst snd]; case_bool_decide; Z.div_mod_to_equations; lia.
  - rewrite (move_other s a Ha). unfold decode. cbn [fst snd].
    case_bool_decide; Z.div_mod_to_equations; lia.
Qed.

Lemma get_possible_actions_nonempty s : get_possible_actions s ≠ [].
Proof.
  unfold get_possible_actions, decode.
  repeat case_decide; try done. Z.div_mod_to_equations. lia.
Qed.

Lemma get_next_state_range s a : 0 ≤ s ≤ 35 → 0 ≤ get_next_state s a ≤ 35.
Proof.
  intros Hs. rewrite get_next_state_eq. case_bool_decide; lia.
Qed.

Lemma mc_possible_actions_nonempty p : in_grid p → mc_possible_actions p ≠ [].
Proof.
  destruct p as [row col]. unfold in_grid, mc_possible_actions, mc_actions.
  cbn [fst snd]. intros Hp.
  rewrite !filter_cons, filter_nil. cbn [fst snd].
  repeat case_decide; try done. lia.
Qed.

Lemma elem_of_mc_possible_actions row col a :
  a ∈ mc_possible_actions (row, col) →
  ∃ dr dc, (list_to_map mc_actions : gmap string (Z * Z)) !! a = Some (dr, dc) ∧
           0 ≤ row + dr < 6 ∧ 0 ≤ col + dc < 6.
Proof.
  unfold mc_possible_actions. intros Ha.
  apply list_elem_of_fmap in Ha as [[a' [dr dc]] [-> Ha]].
  apply list_elem_of_filter in Ha as [Hin Ha]. cbn [fst snd] in *.
  exists dr, dc. split; [|done].
  apply elem_of_list_to_map; [|done].
  apply (bool_decide_unpack (NoDup _)). vm_compute. reflexivity.
Qed.

Section Walks.
Context {num rng : Type} `{PyNum num} `{RandomSource num rng}.

Lemma random_choice_elem {A} (seq : list A) g x g' :
  random_choice seq g = Ok (x, g') → x ∈ seq.
Proof.
  unfold random_choice. destruct seq as [|y seq]; [done|].
  destruct (random_below _ g) as [i g1].
  destruct ((y :: seq) !! i) as [z|] eqn:Hz; [|done].
  cbn. intros [= -> ->]. by eapply list_elem_of_lookup_2.
Qed.

Lemma random_choice_ok `{!RandomSourceLaws num rng} {A} (seq : list A) g :
  seq ≠ [] → ∃ x, random_choice seq g = Ok (x, (random_below (length seq) g).2).
Proof.
  intros Hne. unfold random_choice. destruct seq as [|y seq]; [done|].
  pose proof (random_below_lt (length (y :: seq)) g) as Hlt.
  destruct (random_below _ g) as [i g1]. cbn [fst snd] in *.
  destruct (lookup_lt_is_Some_2 (y :: seq) i) as [z Hz].
  { apply Hlt. cbn. lia. }
  exists z. by rewrite Hz.
Qed.

Lemma get_next_state_mc_in_grid p g p' g' :
  in_grid p → get_next_state_mc p g = Ok (p', g') → in_grid p'.
Proof.
  destruct p as [row col]. intros Hp. unfold get_next_state_mc.
  destruct (mc_possible_actions (row, col)) as [|a0 l] eqn:Hposs.
  { by intros [= <- _]. }
  destruct (random_choice (a0 :: l) g) as [[a g1]| |] eqn:Hch; [|done..].
  apply random_choice_elem in Hch. rewrite <- Hposs in Hch.
  apply elem_of_mc_possible_actions in Hch as (dr & dc & Hd & Hr & Hc).
  res_simpl. unfold py_getitem. rewrite Hd.
  res_simpl. intros [= <- _]. unfold in_grid. cbn [fst snd]. lia.
Qed.

(** C10: for a state index in 0..35 the possible actions are not empty and
    are exactly the actions whose transition leaves the state.  So the
    candidates of a greedy step are never empty, the greedy body never
    breaks out, and each candidate leads to an index in 0..35 again; in
    the Monte Carlo step the list of possible actions is not empty at the
    decoded position, and the position returned is in the grid again. *)
Theorem possible_actions_exact s :
  0 ≤ s ≤ 35 →
  get_possible_actions s ≠ [] ∧
  (∀ a, a ∈ get_possible_actions s ↔ get_next_state s a ≠ s) ∧
  (greedy_candidates s ≠ [] ∧
   (∀ a n, (a, n) ∈ greedy_candidates s → 0 ≤ n ≤ 35) ∧
   (∀ (Q_matrix : list (list num)) st st',
      current_state_index st = s → greedy_body Q_matrix st ≠ Ok (Break st'))) ∧
  (mc_possible_actions (decode s) ≠ [] ∧
   (∀ (g : rng) p' g', get_next_state_mc (decode s) g = Ok (p', g') → in_grid p')).
Proof.
  intros Hs.
  assert (Hcand : greedy_candidates s ≠ []).
  { unfold greedy_candidates. intros Hnil. apply fmap_nil_inv in Hnil.
    by apply (get_possible_actions_nonempty s). }
  split; [apply get_possible_actions_nonempty|].
  split; [intros a; by apply get_possible_actions_moves|].
  split; [split; [done|split]|split].
  - intros a n Hin. unfold greedy_candidates in Hin.
    apply list_elem_of_fmap in Hin as [b [[= -> ->] _]].
    by apply get_next_state_range.
  - intros Q_matrix st st' <-. unfold greedy_body.
    destruct (py_index Q_matrix (current_state_index st)) as [q_values| |]; [|done..].
    res_simpl. unfold greedy_select.
    destruct (greedy_candidates (current_state_index st)) as [|c l]; [done|].
    destruct (py_max_key _ _) as [[ba bn]| |]; [|done..].
    res_simpl. by destruct (R_at (decode bn)).
  - apply mc_possible_actions_nonempty. by apply decode_in_grid.
  - intros g p' g'. apply get_next_state_mc_in_grid. by apply decode_in_grid.
Qed.

End Walks.

(** ** Monte Carlo exploration *)

Lemma route_reward_snoc cells p t r :
  route_reward cells = Ok t → R_at p = Ok r →
  route_reward (cells ++ [p]) = Ok (t + r).
Proof.
  revert t. induction cells as [|c cells IH]; intros t Ht Hr; cbn [route_reward app] in *.
  - injection Ht as <-. rewrite Hr. res_simpl. f_equal. lia.
  - destruct (R_at c) as [rc| |]; [|done..]. res_simpl.
    destruct (route_reward cells) as [t0| |]; [|done..]. res_simpl.
    injection Ht as <-. rewrite (IH t0 eq_refl Hr). res_simpl. f_equal. lia.
Qed.

Lemma keep_better_spec ws : ∀ b,
  (foldl keep_better b ws = b ∧
   ∀ t r, (t, r) ∈ ws → reward_gt t b.2 = false) ∨
  (∃ (i : nat) t r,
     ws !! i = Some (t, r) ∧ foldl keep_better b ws = (Some r, Fin t) ∧
     reward_gt t b.2 = true ∧
     (∀ (j : nat) t' r', ws !! j = Some (t', r') → t' ≤ t) ∧
     (∀ (j : nat) t' r', (j < i)%nat → ws !! j = Some (t', r') → t' < t)).
Proof.
  induction ws as [|[tw rw] ws IH]; intros b.
  { left. split; [done|]. intros t r Hin. by apply elem_of_nil in Hin. }
  cbn [foldl]. unfold keep_better at 2 4. cbn [fst snd].
  destruct (reward_gt tw b.2) eqn:Hgt.
  - right. destruct (IH (Some rw, Fin tw)) as [[Hsame Hnone]|(i & t & r & Hi & Hf & Hbeat & Hle & Hlt)].
    + exists 0%nat, tw, rw. split; [done|]. split; [done|]. split; [done|]. split; [|lia].
      intros [|j] t' r' Hj; cbn in Hj; [injection Hj as -> _; lia|].
      apply list_elem_of_lookup_2 in Hj. apply Hnone in Hj.
      cbn in Hj. apply bool_decide_eq_false in Hj. lia.
    + cbn in Hbeat. apply bool_decide_eq_true in Hbeat.
      exists (S i), t, r. repeat split; [done..| | |].
      * destruct b as [br [|h]]; cbn in *; [done|].
        apply bool_decide_eq_true in Hgt. apply bool_decide_eq_true. lia.
      * intros [|j] t' r' Hj; cbn in Hj; [injection Hj as -> _; lia|]. by eapply Hle.
      * intros [|j] t' r' Hji Hj; cbn in Hj; [injection Hj as -> _; lia|].
        eapply Hlt; [|done]. lia.
  - destruct (IH b) as [[Hsame Hnone]|(i & t & r & Hi & Hf & Hbeat & Hle & Hlt)].
    + left. split; [done|]. intros t r Hin.
      apply elem_of_cons in Hin as [[= -> ->]|Hin]; [done|]. by eapply Hnone.
    + right. exists (S i), t, r.
      assert (Htw : tw < t).
      { destruct b as [br [|h]]; cbn in *; [done|].
        apply bool_decide_eq_true in Hbeat. apply bool_decide_eq_false in Hgt. lia. }
      repeat split; [done..| |].
      * intros [|j] t' r' Hj; cbn in Hj; [injection Hj as -> _; lia|]. by eapply Hle.
      * intros [|j] t' r' Hji Hj; cbn in Hj; [injection Hj as -> _; lia|].
        eapply Hlt; [|done]. lia.
Qed.

Lemma reward_le_refl a : reward_le a a.
Proof. destruct a; cbn; [done|lia]. Qed.

Section MonteCarlo.
Context {num rng : Type} `{PyNum num} `{RandomSource num rng}.

Lemma mc_walk_route fuel : ∀ cur total route g total' route' g',
  mc_walk fuel cur total route g = Ok (total', route', g') →
  ∃ entered t, route' = route ++ entered ∧ route_reward entered = Ok t ∧
               total' = total + t ∧ last (cur :: entered) = Some end_state.
Proof.
  assert (Hstop : ∀ cur total route (g : rng) total' route' g',
    cur = end_state → Ok (total, route, g) = Ok (total', route', g') →
    ∃ entered t, route' = route ++ entered ∧ route_reward entered = Ok t ∧
                 total' = total + t ∧ last (cur :: entered) = Some end_state).
  { intros cur total route g total' route' g' -> [= <- <- _].
    exists [], 0. rewrite app_nil_r. repeat split. lia. }
  induction fuel as [|fuel IH]; intros cur total route g total' route' g';
    cbn [mc_walk]; case_decide as Hend; [by apply Hstop|done|by apply Hstop|].
  destruct (get_next_state_mc cur g) as [[next g1]| |]; [|done..]. res_simpl.
  destruct (R_at next) as [r| |] eqn:Hr; [|done..]. res_simpl.
  case_decide as Hend'.
  - intros [= <- <- _]. exists [next], r. cbn [route_reward]. rewrite Hr. res_simpl.
    repeat split; [f_equal; lia|by rewrite Hend'].
  - intros Hw. apply IH in Hw as (entered & t & -> & Ht & -> & Hlast).
    exists (next :: entered), (r + t). cbn [route_reward]. rewrite Hr, Ht. res_simpl.
    repeat split; [by rewrite <- app_assoc|lia|done].
Qed.

Lemma mc_walk_fuel_mono fuel fuel' cur total route g x :
  (fuel ≤ fuel')%nat →
  mc_walk fuel cur total route g = Ok x → mc_walk fuel' cur total route g = Ok x.
Proof.
  revert fuel' cur total route g. induction fuel as [|fuel IH];
    intros fuel' cur total route g Hle; cbn [mc_walk]; case_decide as Hend.
  - destruct fuel'; cbn [mc_walk]; by rewrite decide_True.
  - done.
  - destruct fuel'; cbn [mc_walk]; by rewrite decide_True.
  - destruct fuel' as [|fuel']; [lia|]. cbn [mc_walk]. rewrite decide_False by done.
    destruct (get_next_state_mc cur g) as [[next g1]| |]; [|done..]. res_simpl.
    destruct (R_at next) as [r| |]; [|done..]. res_simpl.
    case_decide; [done|]. apply IH. lia.
Qed.

Lemma mc_loop_walks fuel n : ∀ st0 st,
  mc_loop fuel n st0 = Ok st →
  ∃ ws, mc_walks fuel n (mc_rng st0) = Ok (ws, mc_rng st) ∧ length ws = n ∧
        (best_route st, highest_reward st) =
        foldl keep_better (best_route st0, highest_reward st0) ws.
Proof.
  induction n as [|n IH]; intros st0 st; cbn [mc_loop mc_walks].
  { intros [= <-]. by exists []. }
  unfold mc_simulation at 1.
  destruct (mc_walk fuel start_state 0 [start_state] (mc_rng st0))
    as [[[t route] g1]| |]; [|done..]. res_simpl.
  set (st1 := if reward_gt t (highest_reward st0)
              then MCState (Some route) (Fin t) g1
              else MCState (best_route st0) (highest_reward st0) g1).
  replace (if reward_gt t (highest_reward st0)
           then Ok (MCState (Some route) (Fin t) g1)
           else Ok (MCState (best_route st0) (highest_reward st0) g1))
    with (Ok st1) by (subst st1; by destruct (reward_gt _ _)).
  res_simpl. intros Hloop. apply IH in Hloop as (ws & Hws & Hlen & Hbest).
  assert (Hg : mc_rng st1 = g1) by (subst st1; by destruct (reward_gt _ _)).
  rewrite Hg in Hws. rewrite Hws. res_simpl.
  exists ((t, route) :: ws). split; [done|]. split; [by cbn; f_equal|].
  rewrite Hbest. cbn [foldl]. f_equal. unfold keep_better. cbn [fst snd].
  subst st1. by destruct (reward_gt _ _).
Qed.

Lemma mc_walks_routes fuel n : ∀ g ws g',
  mc_walks fuel n g = Ok (ws, g') →
  ∀ t route, (t, route) ∈ ws →
    ∃ entered, route = start_state :: entered ∧ route_reward entered = Ok t ∧
               last route = Some end_state.
Proof.
  induction n as [|n IH]; intros g ws g'; cbn [mc_walks].
  { intros [= <- _] t route Hin. by apply elem_of_nil in Hin. }
  destruct (mc_walk fuel start_state 0 [start_state] g)
    as [[[t0 route0] g1]| |] eqn:Hw; [|done..]. res_simpl.
  destruct (mc_walks fuel n g1) as [[ws1 g2]| |] eqn:Hws; [|done..]. res_simpl.
  intros [= <- _] t route Hin.
  apply elem_of_cons in Hin as [[= -> ->]|Hin]; [|by eapply IH].
  apply mc_walk_route in Hw as (entered & t' & -> & Ht & -> & Hlast).
  exists entered. by rewrite Z.add_0_l.
Qed.

Lemma mc_loop_snoc fuel n : ∀ st0,
  mc_loop fuel (S n) st0 = mc_loop fuel n st0 ≫= mc_simulation fuel.
Proof.
  induction n as [|n IH]; intros st0.
  - cbn [mc_loop]. res_simpl. by destruct (mc_simulation fuel st0).
  - change (mc_loop fuel (S (S n)) st0)
      with (mc_simulation fuel st0 ≫= mc_loop fuel (S n)).
    change (mc_loop fuel (S n) st0)
      with (mc_simulation fuel st0 ≫= mc_loop fuel n).
    destruct (mc_simulation fuel st0) as [st1| |]; [|done..]. res_simpl. apply IH.
Qed.

Lemma mc_simulation_le fuel st st' :
  mc_simulation fuel st = Ok st' →
  reward_le (highest_reward st) (highest_reward st').
Proof.
  unfold mc_simulation.
  destruct (mc_walk _ _ _ _ _) as [[[t route] g1]| |]; [|done..]. res_simpl.
  destruct (reward_gt t (highest_reward st)) eqn:Hgt; intros [= <-]; cbn.
  - destruct (highest_reward st) as [|h]; cbn in *; [done|].
    apply bool_decide_eq_true in Hgt. lia.
  - apply reward_le_refl.
Qed.

Lemma mc_walks_fuel_mono fuel fuel' n : ∀ (g : rng) x,
  (fuel ≤ fuel')%nat →
  mc_walks fuel n g = Ok x → mc_walks fuel' n g = Ok x.
Proof.
  induction n as [|n IH]; intros g x Hle; cbn [mc_walks]; [done|].
  destruct (mc_walk fuel start_state 0 [start_state] g)
    as [[[t route] g1]| |] eqn:Hw; [|done..].
  rewrite (mc_walk_fuel_mono _ _ _ _ _ _ _ Hle Hw). res_simpl.
  destruct (mc_walks fuel n g1) as [[ws g2]| |] eqn:Hws; [|done..].
  by rewrite (IH _ _ Hle Hws).
Qed.

Lemma mc_loop_of_walks fuel n : ∀ st0 ws g',
  mc_walks fuel n (mc_rng st0) = Ok (ws, g') →
  mc_loop fuel n st0 =
    Ok (MCState (foldl keep_better (best_route st0, highest_reward st0) ws).1
                (foldl keep_better (best_route st0, highest_reward st0) ws).2 g').
Proof.
  induction n as [|n IH]; intros st0 ws g'; cbn [mc_loop mc_walks].
  { intros [= <- <-]. by destruct st0. }
  unfold mc_simulation at 1.
  destruct (mc_walk fuel start_state 0 [start_state] (mc_rng st0))
    as [[[t route] g1]| |]; [|done..]. res_simpl.
  destruct (mc_walks fuel n g1) as [[ws1 g2]| |] eqn:Hws; [|done..]. res_simpl.
  intros [= <- <-]. cbn [foldl]. unfold keep_better at 2 4. cbn [fst snd].
  destruct (reward_gt t (highest_reward st0)); res_simpl; by rewrite (IH _ ws1 g2).
Qed.

Lemma mc_loop_fuel_mono fuel fuel' n : ∀ st0 st,
  (fuel ≤ fuel')%nat →
  mc_loop fuel n st0 = Ok st → mc_loop fuel' n st0 = Ok st.
Proof.
  induction n as [|n IH]; intros st0 st Hle; cbn [mc_loop]; [done|].
  unfold mc_simulation.
  destruct (mc_walk fuel start_state 0 [start_state] (mc_rng st0))
    as [[[t route] g1]| |] eqn:Hw; [|done..].
  rewrite (mc_walk_fuel_mono _ _ _ _ _ _ _ Hle Hw). res_simpl.
  destruct (reward_gt t (highest_reward st0)); res_simpl; by apply IH.
Qed.

(** C5: when the walks of num_simulations >= 1 simulations all reach the
    end state within the step budget, the exploration returns, with this
    and with any larger budget, the route and the total of one of these
    walks: no walk has a higher total and every earlier walk has a strictly
    lower one.  Each walk starts at the start state (0, 3), ends at the end
    state, and its total is the sum of the rewards of the cells entered
    after the start cell, one summand per visit. *)
Theorem monte_carlo_best fuel num_simulations (g : rng) ws g' :
  1 ≤ num_simulations →
  mc_walks fuel (Z.to_nat num_simulations) g = Ok (ws, g') →
  ∃ (i : nat) total route,
    (∀ fuel', (fuel ≤ fuel')%nat →
       monte_carlo_exploration fuel' num_simulations g
         = Ok (MCState (Some route) (Fin total) g')) ∧
    ws !! i = Some (total, route) ∧
    (∀ (j : nat) t r, ws !! j = Some (t, r) → t ≤ total) ∧
    (∀ (j : nat) t r, (j < i)%nat → ws !! j = Some (t, r) → t < total) ∧
    (∀ t r, (t, r) ∈ ws →
       ∃ entered, r = (0, 3) :: entered ∧ route_reward entered = Ok t ∧
                  last r = Some end_state).
Proof.
  intros Hn Hws.
  assert (Hlen : length ws = Z.to_nat num_simulations).
  { pose proof (mc_loop_of_walks fuel _ (MCState None NegInf g) ws g' Hws) as Hloop.
    apply mc_loop_walks in Hloop as (ws' & Hws' & Hlen & _).
    cbn [mc_rng] in Hws'. congruence. }
  destruct (keep_better_spec ws (None, NegInf))
    as [[_ Hnone]|(i & t & r & Hi & Hf & _ & Hle & Hlt)].
  - destruct ws as [|[t r] ws]; [cbn in Hlen; lia|].
    specialize (Hnone t r (list_elem_of_here _ _)). done.
  - exists i, t, r. split; [|repeat split; try done].
    + intros fuel' Hfuel. unfold monte_carlo_exploration.
      rewrite (mc_loop_of_walks fuel' _ (MCState None NegInf g) ws g').
      * cbn [best_route highest_reward]. by rewrite Hf.
      * by apply (mc_walks_fuel_mono fuel).
    + intros t' r' Hin. by eapply mc_walks_routes.
Qed.

(** C9: with the same generator, when the exploration with n >= 1
    simulations returns, so does the one with n - 1 simulations, and the
    highest reward of the former is at least that of the latter (minus
    infinity for no simulation at all).  Both results stay the same under
    any larger step budget. *)
Theorem monte_carlo_monotone fuel n (g : rng) st :
  1 ≤ n →
  monte_carlo_exploration fuel n g = Ok st →
  ∃ st', monte_carlo_exploration fuel (n - 1) g = Ok st' ∧
         reward_le (highest_reward st') (highest_reward st) ∧
         ∀ fuel', (fuel ≤ fuel')%nat →
           monte_carlo_exploration fuel' n g = Ok st ∧
           monte_carlo_exploration fuel' (n - 1) g = Ok st'.
Proof.
  intros Hn Hrun. pose proof Hrun as Hrun'. revert Hrun'.
  unfold monte_carlo_exploration in *.
  replace (Z.to_nat n) with (S (Z.to_nat (n - 1))) at 1 by lia.
  rewrite mc_loop_snoc.
  destruct (mc_loop fuel (Z.to_nat (n - 1)) _) as [st'| |] eqn:Hprev; [|done..]. res_simpl.
  intros Hsim. exists st'. split; [done|]. split; [by eapply mc_simulation_le|].
  intros fuel' Hfuel. split; by eapply mc_loop_fuel_mono.
Qed.

End MonteCarlo.

(** ** Python indexing *)

Lemma py_index_nonneg {A} (l : list A) i :
  0 ≤ i → py_index l i = from_option Ok (Raise IndexError) (l !! Z.to_nat i).
Proof.
  intros Hi. unfold py_index. cbv zeta. destruct (decide (i < 0)) as [?|_]; [lia|].
  case_decide as Hr; [done|].
  rewrite (lookup_ge_None_2 l (Z.to_nat i)); [done|lia].
Qed.

Lemma py_index_lookup {A} (l : list A) i x :
  0 ≤ i → l !! Z.to_nat i = Some x → py_index l i = Ok x.
Proof. intros Hi Hx. by rewrite py_index_nonneg, Hx. Qed.

Lemma py_setitem_lookup {A} (l : list A) i x v :
  0 ≤ i → l !! Z.to_nat i = Some x →
  py_setitem l i v = Ok (<[Z.to_nat i := v]> l).
Proof.
  intros Hi Hx. unfold py_setitem. cbv zeta. destruct (decide (i < 0)) as [?|_]; [lia|].
  apply lookup_lt_Some in Hx. rewrite decide_True; [done|lia].
Qed.

Lemma R_at_ok p : in_grid p → ∃ r, R_at p = Ok r.
Proof.
  destruct p as [row col]. unfold in_grid, R_at. cbn [fst snd]. intros [Hr Hc].
  destruct (lookup_lt_is_Some_2 R_matrix (Z.to_nat row)) as [R_row HR].
  { cbn. lia. }
  rewrite (py_index_lookup _ _ _ (proj1 Hr) HR). res_simpl.
  assert (Hlen : length R_row = 6%nat).
  { assert (HF : Forall (λ l : list Z, length l = 6%nat) R_matrix)
      by (unfold R_matrix; repeat constructor).
    rewrite Forall_forall in HF. apply HF. by eapply list_elem_of_lookup_2. }
  destruct (lookup_lt_is_Some_2 R_row (Z.to_nat col)) as [r Hrc]; [lia|].
  exists r. apply py_index_lookup; [lia|done].
Qed.

(** ** The Q-table *)

Lemma wf_Q_row {num} (Q_matrix : list (list num)) s :
  wf_Q Q_matrix → 0 ≤ s ≤ 35 →
  ∃ q_row, Q_matrix !! Z.to_nat s = Some q_row ∧ length q_row = 4%nat.
Proof.
  intros [Hlen Hrows] Hs.
  destruct (lookup_lt_is_Some_2 Q_matrix (Z.to_nat s)) as [q_row Hrow]; [lia|].
  exists q_row. split; [done|].
  rewrite Forall_forall in Hrows. apply Hrows. by eapply list_elem_of_lookup_2.
Qed.

Lemma wf_Q_insert {num} (Q_matrix : list (list num)) s a v q_row :
  wf_Q Q_matrix → Q_matrix !! s = Some q_row →
  wf_Q (<[s := <[a := v]> q_row]> Q_matrix).
Proof.
  intros [Hlen Hrows] Hrow. split; [by rewrite length_insert|].
  apply Forall_insert; [done|]. rewrite length_insert.
  rewrite Forall_forall in Hrows. apply Hrows. by eapply list_elem_of_lookup_2.
Qed.

Lemma Q_get_insert_eq {num} (Q_matrix : list (list num)) s a v q_row q :
  Q_matrix !! s = Some q_row → q_row !! a = Some q →
  Q_get (<[s := <[a := v]> q_row]> Q_matrix) s a = Some v.
Proof.
  intros Hrow Hq. unfold Q_get.
  rewrite list_lookup_insert_eq by (by eapply lookup_lt_Some). cbn.
  apply list_lookup_insert_eq. by eapply lookup_lt_Some.
Qed.

Lemma Q_get_insert_ne {num} (Q_matrix : list (list num)) s a v q_row s2 a2 :
  Q_matrix !! s = Some q_row → (s2, a2) ≠ (s, a) →
  Q_get (<[s := <[a := v]> q_row]> Q_matrix) s2 a2 = Q_get Q_matrix s2 a2.
Proof.
  intros Hrow Hne. unfold Q_get.
  destruct (decide (s2 = s)) as [->|Hs].
  - rewrite list_lookup_insert_eq by (by eapply lookup_lt_Some).
    rewrite Hrow. cbn. apply list_lookup_insert_ne. congruence.
  - by rewrite list_lookup_insert_ne.
Qed.

Lemma Q_matrix_init_wf {num : Type} `{PyNum num} : wf_Q (Q_matrix_init (num:=num)).
Proof.
  split; [done|]. unfold Q_matrix_init. apply Forall_replicate. done.
Qed.

Section Training.
Context {num rng : Type} `{PyNum num} `{RandomSource num rng}.
Context `{!PyNumOrder num} `{!RandomSourceLaws num rng}.

Lemma py_max_ok (l : list num) : l ≠ [] → ∃ m, py_max l = Ok m.
Proof. destruct l; [done|]. intros _. by eexists. Qed.

Lemma num_lt_irrefl x : num_lt x x = false.
Proof.
  destruct (num_lt x x) eqn:Hx; [|done]. by rewrite (num_lt_asym x x Hx) in Hx.
Qed.

Lemma num_lt_trans x y z :
  num_lt x y = true → num_lt y z = true → num_lt x z = true.
Proof.
  intros Hxy Hyz. destruct (num_lt x z) eqn:Hxz; [done|].
  pose proof (num_lt_cotrans x z y Hxy Hxz) as Hzy.
  by rewrite (num_lt_asym y z Hyz) in Hzy.
Qed.

(** [max] returns an item of the list that no item exceeds. *)
Lemma py_max_greatest (l : list num) m :
  py_max l = Ok m → m ∈ l ∧ ∀ y, y ∈ l → num_lt m y = false.
Proof.
  destruct l as [|x l]; [done|]. cbn [py_max]. intros [= <-].
  revert x. induction l as [|y l IH]; intros x; cbn [foldl].
  { split; [left|]. intros y Hy. apply list_elem_of_singleton in Hy as ->.
    apply num_lt_irrefl. }
  destruct (IH (if num_lt x y then y else x)) as [Hin Hmax].
  set (m := foldl _ _ l) in *.
  destruct (num_lt x y) eqn:Hxy.
  - split; [by right|]. intros z Hz.
    apply elem_of_cons in Hz as [->|Hz]; [|by apply Hmax].
    destruct (num_lt m x) eqn:Hmx; [|done].
    rewrite <- (Hmax y (list_elem_of_here _ _)). symmetry. by eapply num_lt_trans.
  - split.
    { apply elem_of_cons in Hin as [->|Hin]; [left|by do 2 right]. }
    intros z Hz. apply elem_of_cons in Hz as [->|Hz]; [by apply Hmax; left|].
    apply elem_of_cons in Hz as [->|Hz]; [|by apply Hmax; right].
    destruct (num_lt m y) eqn:Hmy; [|done].
    rewrite <- Hxy. symmetry. eapply num_lt_cotrans; [done|]. apply Hmax. left.
Qed.

Lemma elem_of_best_actions (q_row : list num) m b :
  b ∈ (filter (λ aq : Z * num, num_eq aq.2 m = true) (enumerate q_row)).*1 ↔
  ∃ (i : nat) q, b = Z.of_nat i ∧ q_row !! i = Some q ∧ num_eq q m = true.
Proof.
  rewrite list_elem_of_fmap. split.
  - intros [[b' q] [-> Hin]]. apply list_elem_of_filter in Hin as [Heq Hin].
    unfold enumerate in Hin. apply elem_of_lookup_imap in Hin as (i & q' & [= -> ->] & Hi).
    by exists i, q'.
  - intros (i & q & -> & Hi & Heq). exists (Z.of_nat i, q). split; [done|].
    apply list_elem_of_filter. split; [done|].
    unfold enumerate. apply elem_of_lookup_imap. by exists i, q.
Qed.

Lemma get_next_state_eg_ok Q_matrix s epsilon (g : rng) :
  wf_Q Q_matrix → 0 ≤ s ≤ 35 →
  ∃ a g', get_next_state_eg Q_matrix s epsilon g = Ok (get_next_state s a, a, g') ∧
          0 ≤ a ≤ 3.
Proof.
  intros Hwf Hs. unfold get_next_state_eg.
  destruct (random_uniform g) as [u g1].
  assert (Hany : ∃ a g', random_choice (range 4) g1 = Ok (a, g') ∧ 0 ≤ a ≤ 3).
  { destruct (random_choice_ok (range 4) g1) as [a Ha]; [done|].
    exists a, (random_below (length (range 4)) g1).2. split; [done|].
    apply random_choice_elem in Ha. apply elem_of_seqZ in Ha. lia. }
  destruct (num_lt u epsilon).
  - destruct Hany as (a & g' & -> & Ha). res_simpl. by exists a, g'.
  - destruct (wf_Q_row Q_matrix s Hwf Hs) as (q_row & Hrow & Hlen).
    rewrite (py_index_lookup _ _ _ (proj1 Hs) Hrow). res_simpl.
    destruct (py_max_ok q_row) as [m Hm]; [by destruct q_row|].
    rewrite Hm. res_simpl.
    destruct ((filter _ (enumerate q_row)).*1) as [|b bs] eqn:Hbest.
    + destruct Hany as (a & g' & -> & Ha). res_simpl. by exists a, g'.
    + destruct (random_choice_ok (b :: bs) g1) as [a Ha]; [done|].
      rewrite Ha. res_simpl. eexists _, _. split; [done|].
      apply random_choice_elem in Ha. rewrite <- Hbest in Ha.
      apply elem_of_best_actions in Ha as (i & q & -> & Hi & _).
      apply lookup_lt_Some in Hi. lia.
Qed.

(** What a training step reads before it writes. *)
Lemma q_step_reads epsilon Q_matrix s (g : rng) :
  wf_Q Q_matrix → 0 ≤ s ≤ 35 →
  ∃ s' a g' r next_q_values m q_row q_old,
    get_next_state_eg Q_matrix s epsilon g = Ok (s', a, g') ∧
    0 ≤ s' ≤ 35 ∧ 0 ≤ a ≤ 3 ∧
    R_at (decode s') = Ok r ∧
    Q_matrix !! Z.to_nat s' = Some next_q_values ∧ py_max next_q_values = Ok m ∧
    Q_matrix !! Z.to_nat s = Some q_row ∧ q_row !! Z.to_nat a = Some q_old.
Proof.
  intros Hwf Hs.
  destruct (get_next_state_eg_ok Q_matrix s epsilon g Hwf Hs) as (a & g' & Heg & Ha).
  pose proof (get_next_state_range s a Hs) as Hs'.
  set (s' := get_next_state s a) in *.
  destruct (R_at_ok (decode s') (decode_in_grid s' Hs')) as [r Hr].
  destruct (wf_Q_row Q_matrix s' Hwf Hs') as (next_q_values & Hnext & Hnlen).
  destruct (py_max_ok next_q_values) as [m Hm]; [by destruct next_q_values|].
  destruct (wf_Q_row Q_matrix s Hwf Hs) as (q_row & Hrow & Hlen).
  destruct (lookup_lt_is_Some_2 q_row (Z.to_nat a)) as [q_old Hold]; [lia|].
  by exists s', a, g', r, next_q_values, m, q_row, q_old.
Qed.

(** The table a training step returns, from what it read. *)
Lemma q_step_eq epsilon alpha gamma Q_matrix s (g : rng)
    s' a g' r next_q_values m q_row q_old :
  0 ≤ s → 0 ≤ s' → 0 ≤ a →
  get_next_state_eg Q_matrix s epsilon g = Ok (s', a, g') →
  R_at (decode s') = Ok r →
  Q_matrix !! Z.to_nat s' = Some next_q_values → py_max next_q_values = Ok m →
  Q_matrix !! Z.to_nat s = Some q_row → q_row !! Z.to_nat a = Some q_old →
  q_step epsilon alpha gamma Q_matrix s g =
    Ok (<[Z.to_nat s :=
            <[Z.to_nat a := (q_old + alpha * (of_int r + gamma * m - q_old))%num]> q_row]>
          Q_matrix, s', g').
Proof.
  intros Hs Hs' Ha Heg Hr Hnext Hm Hrow Hold.
  unfold q_step. rewrite Heg. res_simpl. rewrite Hr. res_simpl.
  rewrite (py_index_lookup _ _ _ Hs' Hnext). res_simpl.
  replace (match next_q_values with [] => Ok (of_int 0) | _ :: _ => py_max next_q_values end)
    with (Ok m) by (by destruct next_q_values).
  res_simpl. rewrite (py_index_lookup _ _ _ Hs Hrow). res_simpl.
  rewrite (py_index_lookup _ _ _ Ha Hold). res_simpl.
  unfold Q_store, q_increment.
  rewrite (py_index_lookup _ _ _ Hs Hrow). res_simpl.
  rewrite (py_setitem_lookup _ _ _ _ Ha Hold). res_simpl.
  rewrite (py_setitem_lookup _ _ _ _ Hs Hrow). res_simpl. done.
Qed.

(** C1: a training step from a state s of a well-formed table picks an
    action a and a next state s' by the epsilon-greedy policy, reads the
    reward r of the cell of s' and the maximum m of the row of s', and
    stores Q[s][a] + alpha * (r + gamma * m - Q[s][a]) at row s, column a.
    Every other entry of the table is the one it was, and the table keeps
    its 36 rows of 4 entries. *)
Theorem q_step_update epsilon alpha gamma Q_matrix s (g : rng) :
  wf_Q Q_matrix → 0 ≤ s ≤ 35 →
  ∃ s' a g' r next_q_values m q_old Q_matrix',
    get_next_state_eg Q_matrix s epsilon g = Ok (s', a, g') ∧
    R_at (decode s') = Ok r ∧
    Q_matrix !! Z.to_nat s' = Some next_q_values ∧ py_max next_q_values = Ok m ∧
    Q_get Q_matrix (Z.to_nat s) (Z.to_nat a) = Some q_old ∧
    q_step epsilon alpha gamma Q_matrix s g = Ok (Q_matrix', s', g') ∧
    Q_get Q_matrix' (Z.to_nat s) (Z.to_nat a) =
      Some (q_old + alpha * (of_int r + gamma * m - q_old))%num ∧
    (∀ s2 a2, (s2, a2) ≠ (Z.to_nat s, Z.to_nat a) →
       Q_get Q_matrix' s2 a2 = Q_get Q_matrix s2 a2) ∧
    wf_Q Q_matrix'.
Proof.
  intros Hwf Hs.
  destruct (q_step_reads epsilon Q_matrix s g Hwf Hs)
    as (s' & a & g' & r & next_q_values & m & q_row & q_old
        & Heg & Hs' & Ha & Hr & Hnext & Hm & Hrow & Hold).
  exists s', a, g', r, next_q_values, m, q_old.
  exists (<[Z.to_nat s :=
              <[Z.to_nat a := (q_old + alpha * (of_int r + gamma * m - q_old))%num]> q_row]>
            Q_matrix).
  split; [exact Heg|]. split; [exact Hr|]. split; [exact Hnext|]. split; [exact Hm|].
  split; [by unfold Q_get; rewrite Hrow|].
  split.
  { apply (q_step_eq epsilon alpha gamma Q_matrix s g s' a g' r next_q_values m q_row q_old);
      [lia..|done|done|done|done|done|done]. }
  split; [by eapply Q_get_insert_eq|]. split.
  - intros s2 a2 Hne. by apply Q_get_insert_ne.
  - by apply wf_Q_insert.
Qed.

Lemma start_choice_ok e (g : rng) :
  ∃ s g', random_choice (filter (λ state, state ≠ e) (range 36)) g = Ok (s, g') ∧
          0 ≤ s ≤ 35.
Proof.
  assert (Hne : filter (λ state, state ≠ e) (range 36) ≠ []).
  { intros Hnil.
    assert (Hin : (if decide (e = 0) then 1 else 0) ∈ filter (λ state, state ≠ e) (range 36)).
    { apply list_elem_of_filter. split; [case_decide; lia|].
      apply elem_of_seqZ. case_decide; lia. }
    rewrite Hnil in Hin. by apply elem_of_nil in Hin. }
  destruct (random_choice_ok _ g Hne) as [s Hs].
  exists s, (random_below (length (filter (λ state, state ≠ e) (range 36))) g).2.
  split; [done|]. apply random_choice_elem in Hs.
  apply list_elem_of_filter in Hs as [_ Hs]. apply elem_of_seqZ in Hs. lia.
Qed.

Lemma q_episodes_no_steps episodes e epsilon alpha gamma max_steps : ∀ Q_matrix (g : rng),
  max_steps ≤ 0 →
  ∃ g', q_episodes episodes e epsilon alpha gamma max_steps Q_matrix g = Ok (Q_matrix, g').
Proof.
  induction episodes as [|episodes IH]; intros Q_matrix g Hmax; cbn [q_episodes].
  { by exists g. }
  destruct (start_choice_ok e g) as (s & g1 & -> & Hs). res_simpl.
  replace (Z.to_nat max_steps) with 0%nat by lia. cbn [q_episode]. res_simpl.
  by apply IH.
Qed.

(** C8, as the code has it: a non-positive count makes no call fail.
    With num_simulations <= 0 the exploration runs no walk and returns
    normally, with no route and minus infinity; with num_episodes <= 0 or
    max_steps <= 0 training returns normally, whatever epsilon, alpha and
    gamma are, having run no update step: the table is the one it was. *)
Theorem calls_unchecked fuel num_simulations num_episodes max_steps
    epsilon alpha gamma Q_matrix (g : rng) :
  (num_simulations ≤ 0 →
     monte_carlo_exploration fuel num_simulations g = Ok (MCState None NegInf g)) ∧
  (num_episodes ≤ 0 ∨ max_steps ≤ 0 →
     ∃ g', q_learning num_episodes epsilon alpha gamma max_steps Q_matrix g
           = Ok (Q_matrix, g')).
Proof.
  split.
  - intros Hn. unfold monte_carlo_exploration.
    by replace (Z.to_nat num_simulations) with 0%nat by lia.
  - intros Hzero. unfold q_learning. rewrite end_state_index_eq. res_simpl.
    destruct Hzero as [Hn|Hmax].
    + replace (Z.to_nat num_episodes) with 0%nat by lia. by exists g.
    + by apply q_episodes_no_steps.
Qed.

(** With [epsilon = 0] and a row whose greatest entry is at column [a] and
    nowhere else, the policy picks [a], whatever the generator. *)
Lemma get_next_state_eg_argmax Q_matrix s (a : nat) q_row qa (g : rng) :
  0 ≤ s → Q_matrix !! Z.to_nat s = Some q_row → q_row !! a = Some qa →
  (∀ (b : nat) qb, b ≠ a → q_row !! b = Some qb → num_lt qb qa = true) →
  ∃ g', get_next_state_eg Q_matrix s (of_int 0) g
        = Ok (get_next_state s (Z.of_nat a), Z.of_nat a, g').
Proof.
  intros Hs Hrow Ha Hmax. unfold get_next_state_eg.
  pose proof (random_uniform_nonneg g) as Hu.
  destruct (random_uniform g) as [u g1]. cbn [fst] in Hu. rewrite Hu.
  rewrite (py_index_lookup _ _ _ Hs Hrow). res_simpl.
  destruct (py_max_ok q_row) as [m Hm]; [by destruct q_row|].
  rewrite Hm. res_simpl.
  assert (Hmqa : m = qa).
  { apply py_max_greatest in Hm as [Hin Hgreat].
    apply list_elem_of_lookup_1 in Hin as [b Hb].
    destruct (decide (b = a)) as [->|Hne]; [congruence|].
    pose proof (Hmax b m Hne Hb) as Hlt.
    rewrite (Hgreat qa) in Hlt; [done|]. by eapply list_elem_of_lookup_2. }
  subst m.
  assert (Hself : num_eq qa qa = true).
  { by rewrite num_eq_spec, num_lt_irrefl. }
  destruct ((filter _ (enumerate q_row)).*1) as [|b0 bs] eqn:Hbest.
  { assert (Hin : Z.of_nat a ∈ (filter (λ aq : Z * num, num_eq aq.2 qa = true)
                                  (enumerate q_row)).*1).
    { apply elem_of_best_actions. by exists a, qa. }
    rewrite Hbest in Hin. by apply elem_of_nil in Hin. }
  destruct (random_choice_ok (b0 :: bs) g1) as [x Hx]; [done|].
  rewrite Hx. res_simpl. apply random_choice_elem in Hx. rewrite <- Hbest in Hx.
  apply elem_of_best_actions in Hx as (i & q & -> & Hi & Heq).
  destruct (decide (i = a)) as [->|Hne]; [by eexists|].
  rewrite num_eq_spec, (Hmax i q Hne Hi) in Heq. done.
Qed.

(** C6: with epsilon = 0 and a row of the current state whose maximum is
    attained at one column only, the policy returns that column and the
    state it leads to, for any two states of the random generator. *)
Theorem zero_epsilon_argmax Q_matrix s (a : nat) q_row qa (g1 g2 : rng) :
  0 ≤ s → Q_matrix !! Z.to_nat s = Some q_row → q_row !! a = Some qa →
  (∀ (b : nat) qb, b ≠ a → q_row !! b = Some qb → num_lt qb qa = true) →
  ∃ g1' g2',
    get_next_state_eg Q_matrix s (of_int 0) g1
      = Ok (get_next_state s (Z.of_nat a), Z.of_nat a, g1') ∧
    get_next_state_eg Q_matrix s (of_int 0) g2
      = Ok (get_next_state s (Z.of_nat a), Z.of_nat a, g2').
Proof.
  intros Hs Hrow Ha Hmax.
  destruct (get_next_state_eg_argmax Q_matrix s a q_row qa g1 Hs Hrow Ha Hmax) as [g1' H1].
  destruct (get_next_state_eg_argmax Q_matrix s a q_row qa g2 Hs Hrow Ha Hmax) as [g2' H2].
  by exists g1', g2'.
Qed.

End Training.

(** ** Greedy path *)

Lemma get_possible_actions_sorted s : StronglySorted Z.lt (get_possible_actions s).
Proof.
  unfold get_possible_actions. destruct (decode s) as [row col].
  repeat case_decide; cbn [app]; repeat (constructor; try lia).
Qed.

Lemma while_loop_fuel_mono {T} (cond : T → res bool) body fuel : ∀ fuel' st x,
  (fuel ≤ fuel')%nat →
  while_loop fuel cond body st = Ok x → while_loop fuel' cond body st = Ok x.
Proof.
  induction fuel as [|fuel IH]; intros fuel' st x Hle.
  - destruct fuel'; cbn [while_loop]; destruct (cond st) as [[|]| |]; done.
  - destruct fuel' as [|fuel']; [lia|]. cbn [while_loop].
    destruct (cond st) as [[|]| |]; [|done..]. res_simpl.
    destruct (body st) as [[st1|st1]| |]; [|done..]. res_simpl.
    apply IH. lia.
Qed.

Section Greedy.
Context {num rng : Type} `{PyNum num} `{RandomSource num rng}.
Context `{!PyNumOrder num}.

(** [max(l, key=key)] on a list whose keys all evaluate: the item returned
    has a key that no key exceeds, and every item before it has a strictly
    smaller key. *)
Lemma max_key_from_spec {A} (key : A → res num) (l : list A) : ∀ best bk,
  key best = Ok bk →
  (∀ x, x ∈ l → ∃ k, key x = Ok k) →
  ∃ r kr pre post,
    max_key_from key best bk l = Ok r ∧ key r = Ok kr ∧
    best :: l = pre ++ r :: post ∧
    (∀ x k, x ∈ best :: l → key x = Ok k → num_lt kr k = false) ∧
    (∀ x k, x ∈ pre → key x = Ok k → num_lt k kr = true).
Proof.
  induction l as [|x l IH]; intros best bk Hbest Hkeys.
  { exists best, bk, [], []. cbn [max_key_from]. repeat split; [done..| |].
    - intros x k Hx Hk. apply list_elem_of_singleton in Hx as ->.
      rewrite Hbest in Hk. injection Hk as <-. apply num_lt_irrefl.
    - intros x k Hx. by apply elem_of_nil in Hx. }
  destruct (Hkeys x (list_elem_of_here _ _)) as [k Hk].
  assert (Hkeys' : ∀ y, y ∈ l → ∃ k, key y = Ok k).
  { intros y Hy. apply Hkeys. by right. }
  cbn [max_key_from]. rewrite Hk. res_simpl.
  destruct (num_lt bk k) eqn:Hlt.
  - destruct (IH x k Hk Hkeys') as (r & kr & pre & post & Hr & Hkr & Hsplit & Hgreat & Hfirst).
    assert (Hkrk : num_lt kr k = false) by (by apply (Hgreat x); [left|]).
    assert (Hbkr : num_lt bk kr = true).
    { destruct (num_lt bk kr) eqn:Hb; [done|].
      by rewrite (num_lt_cotrans bk kr k Hlt Hb) in Hkrk. }
    exists r, kr, (best :: pre), post. repeat split; [done..|by rewrite Hsplit| |].
    + intros y ky Hy Hky. apply elem_of_cons in Hy as [->|Hy]; [|by eapply Hgreat].
      rewrite Hbest in Hky. injection Hky as <-. by apply num_lt_asym.
    + intros y ky Hy Hky. apply elem_of_cons in Hy as [->|Hy]; [|by eapply Hfirst].
      rewrite Hbest in Hky. by injection Hky as <-.
  - destruct (IH best bk Hbest Hkeys') as (r & kr & pre & post & Hr & Hkr & Hsplit & Hgreat & Hfirst).
    assert (Hkrb : num_lt kr bk = false) by (by apply (Hgreat best); [left|]).
    assert (Hkrk : num_lt kr k = false).
    { destruct (num_lt kr k) eqn:Hb; [|done].
      by rewrite (num_lt_cotrans kr bk k Hb Hkrb) in Hlt. }
    destruct pre as [|p pre]; cbn [app] in Hsplit; injection Hsplit as <- ->.
    + exists best, kr, [], (x :: post). repeat split; [done..| |].
      * intros y ky Hy Hky. apply elem_of_cons in Hy as [->|Hy]; [by eapply Hgreat; [left|]|].
        apply elem_of_cons in Hy as [->|Hy]; [|by eapply Hgreat; [right|]].
        rewrite Hk in Hky. by injection Hky as <-.
      * intros y ky Hy. by apply elem_of_nil in Hy.
    + assert (Hbkr : num_lt bk kr = true) by (by apply (Hfirst best); [left|]).
      exists r, kr, (best :: x :: pre), post. repeat split; [done..| |].
      * intros y ky Hy Hky. apply elem_of_cons in Hy as [->|Hy]; [by eapply Hgreat; [left|]|].
        apply elem_of_cons in Hy as [->|Hy]; [|by eapply Hgreat; [right|]].
        rewrite Hk in Hky. by injection Hky as <-.
      * intros y ky Hy Hky. apply elem_of_cons in Hy as [->|Hy]; [by eapply Hfirst; [left|]|].
        apply elem_of_cons in Hy as [->|Hy]; [|by eapply Hfirst; [right|]].
        rewrite Hk in Hky. injection Hky as <-. by eapply num_lt_cotrans.
Qed.

Lemma elem_of_greedy_candidates s x :
  x ∈ greedy_candidates s ↔
  x.1 ∈ get_possible_actions s ∧ x.2 = get_next_state s x.1.
Proof.
  unfold greedy_candidates. rewrite list_elem_of_fmap. split.
  - by intros [a [-> Ha]].
  - intros [Ha Hn]. exists x.1. split; [|done]. destruct x as [a n]. cbn in *. by subst.
Qed.

Lemma greedy_candidates_actions s :
  (greedy_candidates s).*1 = get_possible_actions s.
Proof.
  unfold greedy_candidates. rewrite <- list_fmap_compose.
  rewrite <- (list_fmap_id (get_possible_actions s)) at 2. by apply list_fmap_ext.
Qed.

(** C4: one step of the greedy extractor from a state s in 0..35.  The
    candidates are the possible actions of s, which are exactly the actions
    whose move stays on the grid (a self-loop is no candidate).  The action
    a taken is a candidate whose Q-value no candidate exceeds, and every
    candidate earlier in the order up, down, left, right has a strictly
    smaller Q-value.  The position of the state reached is appended to the
    route and its reward added to the total. *)
Theorem greedy_step_choice (Q_matrix : list (list num)) st :
  wf_Q Q_matrix → 0 ≤ current_state_index st ≤ 35 →
  (∀ b, b ∈ get_possible_actions (current_state_index st) ↔
        get_next_state (current_state_index st) b ≠ current_state_index st) ∧
  ∃ q_values a qa r,
    Q_matrix !! Z.to_nat (current_state_index st) = Some q_values ∧
    a ∈ get_possible_actions (current_state_index st) ∧
    q_values !! Z.to_nat a = Some qa ∧
    (∀ b qb, b ∈ get_possible_actions (current_state_index st) →
       q_values !! Z.to_nat b = Some qb → num_lt qa qb = false) ∧
    (∀ b qb, b ∈ get_possible_actions (current_state_index st) → b < a →
       q_values !! Z.to_nat b = Some qb → num_lt qb qa = true) ∧
    R_at (decode (get_next_state (current_state_index st) a)) = Ok r ∧
    greedy_body Q_matrix st =
      Ok (Continue (GreedyState
            (get_next_state (current_state_index st) a)
            (path st ++ [decode (get_next_state (current_state_index st) a)])
            (total_reward st + r) (stdout st))).
Proof.
  intros Hwf Hs. set (s := current_state_index st) in *.
  split; [intros b; by apply get_possible_actions_moves|].
  destruct (wf_Q_row Q_matrix s Hwf Hs) as (q_values & Hrow & Hlen).
  set (key := λ action : Z * Z, py_index q_values action.1).
  assert (Hkey : ∀ b, b ∈ get_possible_actions s →
            ∃ qb, q_values !! Z.to_nat b = Some qb ∧
                  key (b, get_next_state s b) = Ok qb).
  { intros b Hb. apply get_possible_actions_range in Hb.
    destruct (lookup_lt_is_Some_2 q_values (Z.to_nat b)) as [qb Hqb]; [lia|].
    exists qb. split; [done|]. unfold key. cbn [fst]. apply py_index_lookup; [lia|done]. }
  assert (Hkeys : ∀ x, x ∈ greedy_candidates s → ∃ k, key x = Ok k).
  { intros [b n] Hx. apply elem_of_greedy_candidates in Hx as [Hb Hn].
    cbn [fst snd] in *. subst n. destruct (Hkey b Hb) as (qb & _ & Hqb). by exists qb. }
  destruct (greedy_candidates s) as [|c cs] eqn:Hcands.
  { exfalso. apply (get_possible_actions_nonempty s).
    rewrite <- greedy_candidates_actions. by rewrite Hcands. }
  destruct (Hkeys c (list_elem_of_here _ _)) as [kc Hkc].
  destruct (max_key_from_spec key cs c kc Hkc) as
    (r & kr & pre & post & Hmax & Hkr & Hsplit & Hgreat & Hfirst).
  { intros x Hx. apply Hkeys. by right. }
  destruct r as [a n].
  assert (Hin : (a, n) ∈ greedy_candidates s).
  { rewrite Hcands, Hsplit. apply elem_of_app. right. left. }
  apply elem_of_greedy_candidates in Hin as [Ha Hn]. cbn [fst snd] in Ha, Hn. subst n.
  destruct (Hkey a Ha) as (qa & Hqa & Hkqa).
  assert (kr = qa) as -> by congruence.
  destruct (R_at_ok (decode (get_next_state s a))) as [r Hr].
  { apply decode_in_grid. by apply get_next_state_range. }
  exists q_values, a, qa, r.
  split; [done|]. split; [done|]. split; [done|]. split; [|split; [|split; [done|]]].
  - intros b qb Hb Hqb. destruct (Hkey b Hb) as (qb' & Hqb' & Hkb).
    assert (qb' = qb) as -> by congruence.
    apply (Hgreat (b, get_next_state s b)); [|done].
    rewrite <- Hcands. by apply elem_of_greedy_candidates.
  - intros b qb Hb Hba Hqb. destruct (Hkey b Hb) as (qb' & Hqb' & Hkb).
    assert (qb' = qb) as -> by congruence.
    apply (Hfirst (b, get_next_state s b)); [|done].
    pose proof (get_possible_actions_sorted s) as Hsorted.
    rewrite <- greedy_candidates_actions, Hcands, Hsplit in Hsorted, Hb.
    rewrite fmap_app, fmap_cons in Hsorted, Hb. cbn [fst] in Hsorted, Hb.
    apply elem_of_app in Hb as [Hb|Hb].
    + apply list_elem_of_fmap in Hb as [[b' n'] [-> Hb]]. cbn [fst].
      assert (Hc : (b', n') ∈ greedy_candidates s).
      { rewrite Hcands, Hsplit. apply elem_of_app. by left. }
      apply elem_of_greedy_candidates in Hc as [_ Hn']. cbn [fst snd] in Hn'. by subst n'.
    + apply StronglySorted_app_1_r in Hsorted.
      apply StronglySorted_inv in Hsorted as [_ Hpost].
      apply elem_of_cons in Hb as [->|Hb]; [lia|].
      rewrite Forall_forall in Hpost. apply Hpost in Hb. lia.
  - unfold greedy_body. fold s. rewrite (py_index_lookup _ _ _ (proj1 Hs) Hrow). res_simpl.
    rewrite Hcands. unfold greedy_select. cbn [py_max_key]. fold key.
    change (py_index q_values c.1) with (key c). rewrite Hkc. res_simpl. rewrite Hmax. res_simpl. rewrite Hr. res_simpl. done.
Qed.

End Greedy.

(** ** The concrete instance satisfies the laws *)

#[global] Instance Q_num_order : PyNumOrder Q.
Proof.
  split; cbn [num_lt num_eq Q_num].
  - intros x y Hxy. apply negb_true_iff in Hxy. apply negb_false_iff.
    apply Qle_bool_iff. destruct (Qle_bool y x) eqn:Hyx; [done|].
    apply Qlt_le_weak, Qnot_le_lt. intros Hle. apply Qle_bool_iff in Hle. congruence.
  - intros x y z Hxz Hxy. apply negb_true_iff in Hxz. apply negb_false_iff in Hxy.
    apply negb_true_iff. apply Qle_bool_iff in Hxy.
    destruct (Qle_bool z y) eqn:Hzy; [|done].
    apply Qle_bool_iff in Hzy. rewrite <- Hxz. symmetry. apply Qle_bool_iff.
    by eapply Qle_trans.
  - intros x y. rewrite !negb_involutive. apply eq_true_iff_eq.
    rewrite andb_true_iff, Qeq_bool_iff, !Qle_bool_iff. split.
    + intros Heq. split; apply Qle_lteq; right; [symmetry|]; done.
    + intros [Hyx Hxy]. by apply Qle_antisym.
Qed.

#[global] Instance float_script_source_laws : RandomSourceLaws float (list nat).
Proof.
  split; cbn [random_below random_uniform float_script_source fst].
  - intros n g Hn. apply Nat.mod_upper_bound. lia.
  - intros g. pose proof (Nat.mod_upper_bound (hd 0%nat g) 4) as Hk.
    destruct (hd 0%nat g `mod` 4)%nat as [|[|[|[|k]]]]; [reflexivity..|lia].
Qed.

#[global] Instance script_source_laws : RandomSourceLaws Q (list nat).
Proof.
  split; cbn [random_below random_uniform script_source fst].
  - intros n g Hn. apply Nat.mod_upper_bound. lia.
  - intros g. cbn [num_lt of_int Q_num]. apply negb_false_iff.
    apply Qle_bool_iff. unfold Qle. cbn. lia.
Qed.

(** ** The theorems at concrete inputs *)

Lemma demo_Q_wf : wf_Q demo_Q.
Proof.
  unfold demo_Q. split; [done|].
  apply Forall_insert; [|done]. apply Forall_insert; [|done].
  apply (Q_matrix_init_wf (num:=Q)).
Qed.

Lemma possible_actions_exact_witness :
  0 ≤ 0 ≤ 35 ∧
  get_possible_actions 0 ≠ [] ∧
  (∀ a, a ∈ get_possible_actions 0 ↔ get_next_state 0 a ≠ 0) ∧
  mc_possible_actions (decode 0) ≠ [].
Proof.
  assert (Hs : 0 ≤ 0 ≤ 35) by lia.
  destruct (possible_actions_exact (num:=Q) (rng:=list nat) 0 Hs)
    as (Hne & Hiff & _ & Hmc & _).
  done.
Defined.

Lemma demo_Q_float_wf : wf_Q demo_Q_float.
Proof.
  unfold demo_Q_float. split; [done|].
  apply Forall_insert; [|done]. apply Forall_insert; [|done].
  apply (Q_matrix_init_wf (num:=float)).
Qed.

(** The update of the specification's example, in binary64 floats: reward
    10, gamma 0.9, alpha 0.5, maximum 20 at the next state, old value 4. *)
Lemma q_step_update_witness :
  wf_Q demo_Q_float ∧ 0 ≤ 3 ≤ 35 ∧
  ∃ Q_matrix' g',
    q_step (num:=float) 0%float 0.5%float float_0_9 demo_Q_float 3 [0%nat]
      = Ok (Q_matrix', 4, g') ∧
    R_at (decode 4) = Ok 10 ∧
    Q_get Q_matrix' 3 3 = Some (4 + 0.5 * (10 + float_0_9 * 20 - 4))%float ∧
    (∀ s2 a2, (s2, a2) ≠ (3%nat, 3%nat) →
       Q_get Q_matrix' s2 a2 = Q_get demo_Q_float s2 a2).
Proof.
  assert (Hs : 0 ≤ 3 ≤ 35) by lia.
  split; [apply demo_Q_float_wf|]. split; [done|].
  destruct (q_step_update (num:=float) 0%float 0.5%float float_0_9 demo_Q_float 3 [0%nat]
              demo_Q_float_wf Hs)
    as (s' & a & g' & r & nq & m & q_old & Q' & Heg & Hr & Hnq & Hm
        & Hold & Hstep & Hnew & Hother & _).
  vm_compute in Heg. injection Heg as <- <- <-.
  vm_compute in Hr. injection Hr as <-.
  vm_compute in Hnq. injection Hnq as <-.
  vm_compute in Hm. injection Hm as <-.
  vm_compute in Hold. injection Hold as <-.
  exists Q', []. split; [exact Hstep|]. split; [reflexivity|].
  split; [exact Hnew|exact Hother].
Defined.

(** In binary64 the example's new value is 16. *)
Example update_example_value :
  (4 + 0.5 * (10 + float_0_9 * 20 - 4))%float = 16%float.
Proof. vm_compute. reflexivity. Qed.

Lemma greedy_step_choice_witness :
  wf_Q demo_Q ∧ 0 ≤ 3 ≤ 35 ∧
  ∃ a r,
    a ∈ get_possible_actions 3 ∧
    greedy_body demo_Q (GreedyState 3 [(0, 3)] 0 []) =
      Ok (Continue (GreedyState (get_next_state 3 a)
                      ([(0, 3)] ++ [decode (get_next_state 3 a)]) (0 + r) [])).
Proof.
  assert (Hs : 0 ≤ 3 ≤ 35) by lia.
  split; [apply demo_Q_wf|]. split; [done|].
  destruct (greedy_step_choice (num:=Q) demo_Q (GreedyState 3 [(0, 3)] 0 []) demo_Q_wf Hs)
    as (_ & q_values & a & qa & r & _ & Ha & _ & _ & _ & _ & Hbody).
  by exists a, r.
Defined.

Lemma monte_carlo_best_witness :
  1 ≤ 2 ∧
  monte_carlo_exploration (num:=Q) 20 2 demo_script =
    Ok (MCState (Some [(0, 3); (1, 3); (1, 2); (1, 1); (1, 0);
                       (2, 0); (3, 0); (4, 0); (5, 0)]) (Fin (-1190)) []) ∧
  ∃ (i : nat) total route,
    [(-1500, [(0, 3); (0, 2); (0, 1); (0, 0); (1, 0); (2, 0); (3, 0); (4, 0); (5, 0)]);
     (-1190, [(0, 3); (1, 3); (1, 2); (1, 1); (1, 0); (2, 0); (3, 0); (4, 0); (5, 0)])]
      !! i = Some (total, route) ∧
    monte_carlo_exploration (num:=Q) 20 2 demo_script
      = Ok (MCState (Some route) (Fin total) []).
Proof.
  assert (Hn : 1 ≤ 2) by lia. split; [done|]. split; [vm_compute; reflexivity|].
  destruct (monte_carlo_best (num:=Q) 20 2 demo_script
    [(-1500, [(0, 3); (0, 2); (0, 1); (0, 0); (1, 0); (2, 0); (3, 0); (4, 0); (5, 0)]);
     (-1190, [(0, 3); (1, 3); (1, 2); (1, 1); (1, 0); (2, 0); (3, 0); (4, 0); (5, 0)])]
    [] Hn) as (i & total & route & Hrun & Hi & _).
  { vm_compute. reflexivity. }
  exists i, total, route. split; [exact Hi|]. apply Hrun. lia.
Defined.

Lemma monte_carlo_monotone_witness :
  1 ≤ 2 ∧
  ∃ st', monte_carlo_exploration (num:=Q) 20 (2 - 1) demo_script = Ok st' ∧
         reward_le (highest_reward st') (Fin (-1190)).
Proof.
  assert (Hn : 1 ≤ 2) by lia. split; [done|].
  destruct (monte_carlo_monotone (num:=Q) 20 2 demo_script
           (MCState (Some [(0, 3); (1, 3); (1, 2); (1, 1); (1, 0);
                           (2, 0); (3, 0); (4, 0); (5, 0)]) (Fin (-1190)) []) Hn)
    as (st' & Hrun & Hle & _).
  { vm_compute. reflexivity. }
  by exists st'.
Defined.

Lemma zero_epsilon_argmax_witness :
  ∃ g1' g2',
    get_next_state_eg demo_Q 3 (of_int 0) [7; 3]%nat = Ok (get_next_state 3 3, 3, g1') ∧
    get_next_state_eg demo_Q 3 (of_int 0) [55; 9; 2]%nat = Ok (get_next_state 3 3, 3, g2').
Proof.
  apply (zero_epsilon_argmax (num:=Q) demo_Q 3 3%nat [0; 0; 0; 4]%Q 4%Q).
  - lia.
  - reflexivity.
  - reflexivity.
  - intros [|[|[|[|b]]]] qb Hne Hb; cbn in Hb; try done; by injection Hb as <-.
Defined.

Lemma calls_unchecked_witness :
  monte_carlo_exploration (num:=Q) 5 0 [4; 2]%nat = Ok (MCState None NegInf [4; 2]%nat) ∧
  (∃ g', q_learning 3 7%Q 0%Q (-2)%Q 0 (Q_matrix_init (num:=Q)) [4; 2]%nat
         = Ok (Q_matrix_init, g')).
Proof.
  destruct (calls_unchecked (num:=Q) 5 0 3 0 7%Q 0%Q (-2)%Q Q_matrix_init [4; 2]%nat)
    as (Hmc & Hq).
  split; [apply Hmc; lia|apply Hq; lia].
Defined.

(** ** Where the code departs from the specification *)

(** C8 fails on the code: training with epsilon = 2 raises nothing, runs a
    step and changes the table; exploring with no simulation raises
    nothing either. *)
Lemma invalid_parameters_accepted :
  q_learning (num:=Q) 1 2%Q 1%Q 1%Q 1 Q_matrix_init [3; 50; 1]%nat =
    Ok (<[3%nat := [0; -300; 0; 0]%Q]> Q_matrix_init, []) ∧
  <[3%nat := [0; -300; 0; 0]%Q]> (Q_matrix_init (num:=Q)) ≠ Q_matrix_init ∧
  monte_carlo_exploration (num:=Q) 0 0 ([] : list nat) = Ok (MCState None NegInf []).
Proof.
  split; [vm_compute; reflexivity|]. split; [|reflexivity].
  intros Heq. apply (f_equal (λ Qm, Q_get Qm 3 1)) in Heq. vm_compute in Heq. discriminate.
Qed.

(** * Further properties of the code *)

(** ** Transitions as index arithmetic *)

(** A possible action, as arithmetic on the index. *)
Lemma get_next_state_moved s a :
  0 ≤ s ≤ 35 → a ∈ get_possible_actions s →
  get_next_state s a = s + action_offset a ∧
  decode (get_next_state s a) = move (decode s) a ∧
  adjacent (decode s) (decode (get_next_state s a)).
Proof.
  intros Hs Ha. pose proof (get_possible_actions_range s a Ha) as Hrange.
  apply elem_of_get_possible_actions in Ha.
  rewrite get_next_state_eq. unfold action_offset, adjacent.
  destruct (move_cases s a Hrange) as [[-> ->]|[[-> ->]|[[-> ->]|[-> ->]]]];
    cbn [fst snd]; rewrite bool_decide_true by (Z.div_mod_to_equations; lia);
    rewrite decode_encode by (Z.div_mod_to_equations; lia);
    repeat case_decide; try lia;
    (split; [Z.div_mod_to_equations; lia|]); (split; [done|]);
    unfold decode; cbn [fst snd]; lia.
Qed.

(** X1: from a state index in 0..35, [get_next_state] adds -6 (up), +6
    (down), -1 (left) or +1 (right) to the index when the action is one of
    the possible actions, and returns the index as it is for any other
    action; a possible action moves the decoded position by one row or one
    column, to an adjacent cell. *)
Theorem get_next_state_offset s a :
  0 ≤ s ≤ 35 →
  get_next_state s a =
    (if bool_decide (a ∈ get_possible_actions s) then s + action_offset a else s) ∧
  (a ∈ get_possible_actions s →
     decode (get_next_state s a) = move (decode s) a ∧
     adjacent (decode s) (decode (get_next_state s a))).
Proof.
  intros Hs. split.
  - case_bool_decide as Ha.
    + by apply get_next_state_moved.
    + destruct (decide (get_next_state s a = s)) as [Heq|Hne]; [done|].
      by apply get_possible_actions_moves in Hne.
  - intros Ha. by apply get_next_state_moved.
Qed.

Lemma get_next_state_offset_witness :
  get_next_state 14 0 = 8 ∧ get_next_state 5 3 = 5.
Proof.
  assert (H14 : 0 ≤ 14 ≤ 35) by lia. assert (H5 : 0 ≤ 5 ≤ 35) by lia.
  destruct (get_next_state_offset 14 0 H14) as [-> _].
  destruct (get_next_state_offset 5 3 H5) as [-> _].
  split; reflexivity.
Defined.

(** X2: an action index outside 0..3 moves nothing: [get_next_state]
    returns the state index it was given, whatever that index is. *)
Theorem get_next_state_unknown_action s a :
  ¬ 0 ≤ a ≤ 3 → get_next_state s a = s.
Proof.
  intros Ha. rewrite get_next_state_eq, (move_other s a Ha).
  case_bool_decide; [apply encode_decode|done].
Qed.

Lemma get_next_state_unknown_action_witness :
  get_next_state 17 4 = 17 ∧ get_next_state (-3) (-1) = -3 ∧ get_next_state 40 7 = 40.
Proof.
  split; [|split].
  - apply (get_next_state_unknown_action 17 4). lia.
  - apply (get_next_state_unknown_action (-3) (-1)). lia.
  - apply (get_next_state_unknown_action 40 7). lia.
Defined.

(** X3: a move can be undone: after an action that changed the state, the
    opposite action is possible and leads back. *)
Theorem get_next_state_opposite s a :
  0 ≤ s ≤ 35 → get_next_state s a ≠ s →
  opposite a ∈ get_possible_actions (get_next_state s a) ∧
  get_next_state (get_next_state s a) (opposite a) = s.
Proof.
  intros Hs Hmove. apply get_possible_actions_moves in Hmove; [|done].
  pose proof (get_next_state_range s a Hs) as Hs'.
  destruct (get_next_state_moved s a Hs Hmove) as (Hoff & _ & _).
  assert (Hopp : opposite a ∈ get_possible_actions (get_next_state s a)).
  { rewrite Hoff in *. apply elem_of_get_possible_actions in Hmove.
    apply elem_of_get_possible_actions. unfold opposite, action_offset in *.
    repeat case_decide; Z.div_mod_to_equations; lia. }
  split; [done|].
  destruct (get_next_state_moved _ _ Hs' Hopp) as (-> & _ & _).
  rewrite Hoff. apply get_possible_actions_range in Hmove.
  unfold opposite, action_offset. repeat case_decide; lia.
Qed.

Lemma get_next_state_opposite_witness :
  opposite 3 ∈ get_possible_actions (get_next_state 3 3) ∧
  get_next_state (get_next_state 3 3) (opposite 3) = 3.
Proof.
  apply (get_next_state_opposite 3 3); [lia|].
  rewrite get_next_state_eq. vm_compute. discriminate.
Defined.

(** X4: whatever the state index, the possible actions are between two and
    four actions of 0..3, listed in increasing order without repetition. *)
Theorem get_possible_actions_shape s :
  StronglySorted Z.lt (get_possible_actions s) ∧
  Forall (λ a, 0 ≤ a ≤ 3) (get_possible_actions s) ∧
  (2 ≤ length (get_possible_actions s) ≤ 4)%nat.
Proof.
  split; [apply get_possible_actions_sorted|]. split.
  - apply Forall_forall. intros a. apply get_possible_actions_range.
  - unfold get_possible_actions, decode.
    repeat case_decide; cbn [app length]; Z.div_mod_to_equations; lia.
Qed.

(** The names of the Monte Carlo step and the possible actions of the
    index of the same cell. *)
Lemma mc_possible_actions_index s :
  0 ≤ s ≤ 35 →
  Some <$> mc_possible_actions (decode s) =
  (λ a, actions !! Z.to_nat a) <$> get_possible_actions s.
Proof.
  intros Hs. pose proof (decode_in_grid s Hs) as [Hr Hc].
  unfold get_possible_actions. destruct (decode s) as [row col]. cbn [fst snd] in *.
  unfold mc_possible_actions, mc_actions.
  rewrite !filter_cons, filter_nil. cbn [fst snd].
  repeat case_decide; try lia; reflexivity.
Qed.

(** X5: at a position of the grid, the action names the Monte Carlo step
    may choose from are the names that [self.actions] gives to the possible
    actions of the index of the position, in the same order; so both list
    the same moves. *)
Theorem mc_possible_actions_names p :
  in_grid p →
  Some <$> mc_possible_actions p =
    (λ a, actions !! Z.to_nat a) <$> get_possible_actions (p.1 * 6 + p.2) ∧
  length (mc_possible_actions p) = length (get_possible_actions (p.1 * 6 + p.2)).
Proof.
  intros Hp. assert (Hs : 0 ≤ p.1 * 6 + p.2 ≤ 35) by (unfold in_grid in Hp; lia).
  pose proof (mc_possible_actions_index _ Hs) as Heq.
  rewrite decode_encode in Heq by (unfold in_grid in Hp; lia).
  replace (p.1, p.2) with p in Heq by (by destruct p).
  split; [done|].
  apply (f_equal length) in Heq. by rewrite !length_fmap in Heq.
Qed.

Lemma mc_possible_actions_names_witness :
  Some <$> mc_possible_actions (5, 0) =
    (λ a, actions !! Z.to_nat a) <$> get_possible_actions 30 ∧
  length (mc_possible_actions (5, 0)) = length (get_possible_actions 30).
Proof. apply (mc_possible_actions_names (5, 0)). unfold in_grid. cbn. lia. Defined.

(** ** Walks are paths on the grid *)

Lemma steps_from_length p cells :
  in_grid p → steps_from p cells → last (p :: cells) = Some end_state →
  steps_to_end p ≤ Z.of_nat (length cells).
Proof.
  revert p. induction cells as [|q cells IH]; intros p Hp Hsteps Hlast.
  - cbn in Hlast. injection Hlast as ->. vm_compute. discriminate.
  - destruct Hsteps as (_ & Hadj & Hq & Hsteps).
    rewrite last_cons_cons in Hlast. specialize (IH q Hq Hsteps Hlast).
    unfold steps_to_end, adjacent in *. cbn [length]. lia.
Qed.

Lemma mc_actions_lookup :
  (list_to_map mc_actions : gmap string (Z * Z)) !! "up"%string = Some (-1, 0) ∧
  (list_to_map mc_actions : gmap string (Z * Z)) !! "down"%string = Some (1, 0) ∧
  (list_to_map mc_actions : gmap string (Z * Z)) !! "left"%string = Some (0, -1) ∧
  (list_to_map mc_actions : gmap string (Z * Z)) !! "right"%string = Some (0, 1).
Proof. repeat split; vm_compute; reflexivity. Qed.

Section Paths.
Context {num rng : Type} `{PyNum num} `{RandomSource num rng}.
Context `{!PyNumOrder num} `{!RandomSourceLaws num rng}.

(** The Monte Carlo step at the position of a state index, in terms of
    [get_next_state]. *)
Lemma get_next_state_mc_index s (g : rng) :
  0 ≤ s ≤ 35 →
  ∃ a p' g',
    get_next_state_mc (decode s) g = Ok (p', g') ∧
    a ∈ get_possible_actions s ∧
    p' = decode (get_next_state s a) ∧
    adjacent (decode s) p' ∧ in_grid p'.
Proof.
  intros Hs. pose proof (decode_in_grid s Hs) as Hgrid.
  pose proof (mc_possible_actions_nonempty _ Hgrid) as Hne.
  unfold get_next_state_mc. unfold decode at 1.
  fold (decode s).
  destruct (mc_possible_actions (decode s)) as [|n0 names] eqn:Hnames; [done|].
  destruct (random_choice_ok (n0 :: names) g) as [name Hname]; [done|].
  rewrite Hname. res_simpl. apply random_choice_elem in Hname. rewrite <- Hnames in Hname.
  assert (Hidx : ∃ a, a ∈ get_possible_actions s ∧ actions !! Z.to_nat a = Some name).
  { pose proof (mc_possible_actions_index s Hs) as Heq.
    assert (Hin : Some name ∈ Some <$> mc_possible_actions (decode s)).
    { apply list_elem_of_fmap. by exists name. }
    rewrite Heq in Hin. apply list_elem_of_fmap in Hin as (a & Ha & Hin). by exists a. }
  destruct Hidx as (a & Ha & Hact).
  pose proof (get_possible_actions_range s a Ha) as Hrange.
  destruct (get_next_state_moved s a Hs Ha) as (_ & Hdec & Hadj).
  pose proof (decode_in_grid _ (get_next_state_range s a Hs)) as Hgrid'.
  exists a, (decode (get_next_state s a)), (random_below (length (n0 :: names)) g).2.
  split; [|done]. rewrite Hdec. unfold py_getitem.
  destruct (move_cases s a Hrange) as [[-> ->]|[[-> ->]|[[-> ->]|[-> ->]]]];
    cbn in Hact; injection Hact as <-;
    destruct mc_actions_lookup as (Hup & Hdown & Hleft & Hright);
    rewrite ?Hup, ?Hdown, ?Hleft, ?Hright; res_simpl; unfold decode;
    repeat f_equal; lia.
Qed.


(** X6: at a position of the grid the Monte Carlo step never fails and
    never stays in place: it returns the position that [get_next_state]
    reaches from the index of the position by one of its possible actions,
    a cell of the grid adjacent to the current one. *)
Theorem get_next_state_mc_step p (g : rng) :
  in_grid p →
  ∃ a p' g',
    get_next_state_mc p g = Ok (p', g') ∧
    a ∈ get_possible_actions (p.1 * 6 + p.2) ∧
    p' = decode (get_next_state (p.1 * 6 + p.2) a) ∧
    p' ≠ p ∧ adjacent p p' ∧ in_grid p'.
Proof.
  intros Hp. assert (Hs : 0 ≤ p.1 * 6 + p.2 ≤ 35) by (unfold in_grid in Hp; lia).
  assert (Hdec : decode (p.1 * 6 + p.2) = p).
  { rewrite decode_encode by (unfold in_grid in Hp; lia). by destruct p. }
  destruct (get_next_state_mc_index _ g Hs) as (a & p' & g' & Hstep & Ha & Hp' & Hadj & Hgrid).
  rewrite Hdec in Hstep, Hadj.
  exists a, p', g'. split; [done|]. split; [done|]. split; [done|].
  split; [|done]. intros ->. unfold adjacent in Hadj. lia.
Qed.

(** The walk from a cell of the grid, as a path. *)
Lemma mc_walk_steps fuel : ∀ cur total route (g : rng) total' route' g',
  in_grid cur →
  mc_walk fuel cur total route g = Ok (total', route', g') →
  ∃ entered, route' = route ++ entered ∧ steps_from cur entered ∧
             last (cur :: entered) = Some end_state.
Proof.
  induction fuel as [|fuel IH]; intros cur total route g total' route' g' Hcur;
    cbn [mc_walk]; case_decide as Hend; try done;
    try (intros [= <- <- _]; exists []; by rewrite app_nil_r, Hend).
  assert (Hs : 0 ≤ cur.1 * 6 + cur.2 ≤ 35) by (unfold in_grid in Hcur; lia).
  destruct (get_next_state_mc_index _ g Hs) as (a & next & g1 & Hstep & _ & _ & Hadj & Hnext).
  rewrite decode_encode in Hstep, Hadj by (unfold in_grid in Hcur; lia).
  replace (cur.1, cur.2) with cur in Hstep, Hadj by (by destruct cur).
  rewrite Hstep. res_simpl.
  destruct (R_at next) as [r| |]; [|done..]. res_simpl.
  case_decide as Hend'.
  - intros [= <- <- _]. exists [next]. split; [done|].
    split; [by cbn [steps_from]|]. cbn [last]. by rewrite Hend'.
  - intros Hw. apply (IH _ _ _ _ _ _ _ Hnext) in Hw as (entered & -> & Hsteps & Hlast).
    exists (next :: entered). rewrite <- app_assoc. split; [done|].
    split; [by cbn [steps_from]|]. by rewrite last_cons_cons.
Qed.

(** X7: a walk of the exploration that returns is a path: it starts at the
    start state, each step goes from a cell that is not the end state to an
    adjacent cell of the grid, the last cell is the end state, and the
    route has at least 9 cells. *)
Theorem mc_walk_is_path fuel (g : rng) total route g' :
  mc_walk fuel start_state 0 [start_state] g = Ok (total, route, g') →
  ∃ entered,
    route = start_state :: entered ∧
    steps_from start_state entered ∧
    last route = Some end_state ∧
    (9 ≤ length route)%nat.
Proof.
  intros Hw. assert (Hstart : in_grid start_state) by (unfold in_grid; cbn; lia).
  apply (mc_walk_steps _ _ _ _ _ _ _ _ Hstart) in Hw as (entered & -> & Hsteps & Hlast).
  exists entered. split; [done|]. split; [done|]. split; [done|].
  pose proof (steps_from_length _ _ Hstart Hsteps Hlast) as Hlen.
  cbn [app length]. unfold steps_to_end, start_state in Hlen. cbn in Hlen. lia.
Qed.

Lemma mc_walks_paths fuel n : ∀ (g : rng) ws g',
  mc_walks fuel n g = Ok (ws, g') →
  ∀ t route, (t, route) ∈ ws →
    ∃ entered, route = start_state :: entered ∧ steps_from start_state entered ∧
               last route = Some end_state ∧ (9 ≤ length route)%nat ∧
               route_reward entered = Ok t.
Proof.
  induction n as [|n IH]; intros g ws g'; cbn [mc_walks].
  { intros [= <- _] t route Hin. by apply elem_of_nil in Hin. }
  destruct (mc_walk fuel start_state 0 [start_state] g)
    as [[[t0 route0] g1]| |] eqn:Hw; [|done..]. res_simpl.
  destruct (mc_walks fuel n g1) as [[ws1 g2]| |] eqn:Hws; [|done..]. res_simpl.
  intros [= <- _] t route Hin.
  apply elem_of_cons in Hin as [[= -> ->]|Hin]; [|by eapply IH].
  pose proof (mc_walk_route _ _ _ _ _ _ _ _ Hw) as (entered' & t' & Hroute & Ht & -> & _).
  assert (Hstart : in_grid start_state) by (unfold in_grid; cbn; lia).
  pose proof (mc_walk_steps _ _ _ _ _ _ _ _ Hstart Hw) as (entered & -> & Hsteps & Hlast).
  apply (inj (app [start_state])) in Hroute as <-.
  exists entered. split; [done|]. split; [done|]. split; [done|].
  split; [|by rewrite Z.add_0_l].
  pose proof (steps_from_length _ _ Hstart Hsteps Hlast) as Hlen.
  cbn [app length]. unfold steps_to_end, start_state in Hlen. cbn in Hlen. lia.
Qed.

(** X8: when the exploration with at least one simulation returns, it
    returns a route and an int reward, never [None] or minus infinity: the
    route is a path from the start state to the end state of at least 9
    cells, and the reward is the sum of the rewards of the cells entered
    along it. *)
Theorem monte_carlo_returns_path fuel num_simulations (g : rng) st :
  1 ≤ num_simulations →
  monte_carlo_exploration fuel num_simulations g = Ok st →
  ∃ entered t,
    best_route st = Some (start_state :: entered) ∧
    highest_reward st = Fin t ∧
    steps_from start_state entered ∧
    last (start_state :: entered) = Some end_state ∧
    (9 ≤ length (start_state :: entered))%nat ∧
    route_reward entered = Ok t.
Proof.
  intros Hn Hrun. unfold monte_carlo_exploration in Hrun.
  apply mc_loop_walks in Hrun as (ws & Hws & Hlen & Hbest).
  cbn [mc_rng best_route highest_reward] in Hws, Hbest.
  destruct (keep_better_spec ws (None, NegInf))
    as [[_ Hnone]|(i & t & r & Hi & Hf & _)].
  - destruct ws as [|[t r] ws]; [cbn in Hlen; lia|].
    specialize (Hnone t r (list_elem_of_here _ _)). done.
  - rewrite Hf in Hbest. injection Hbest as Hroute Hhigh.
    apply list_elem_of_lookup_2 in Hi.
    destruct (mc_walks_paths _ _ _ _ _ Hws _ _ Hi)
      as (entered & -> & Hsteps & Hlast & Hlen9 & Ht).
    by exists entered, t.
Qed.

End Paths.

(** ** The reward matrix and the terrain *)

(** X13: at every cell of the grid the reward lookup succeeds and returns
    the reward that the dict [rewards] holds for the terrain label of the
    cell; no label of the terrain is missing from [rewards], so the default
    0 is never used. *)
Theorem R_at_terrain row col :
  in_grid (row, col) →
  ∃ trow label r,
    terrain !! Z.to_nat row = Some trow ∧ trow !! Z.to_nat col = Some label ∧
    rewards !! label = Some r ∧ R_at (row, col) = Ok r.
Proof.
  unfold in_grid. cbn [fst snd]. intros [Hr Hc].
  assert (Hrow : row = 0 ∨ row = 1 ∨ row = 2 ∨ row = 3 ∨ row = 4 ∨ row = 5) by lia.
  assert (Hcol : col = 0 ∨ col = 1 ∨ col = 2 ∨ col = 3 ∨ col = 4 ∨ col = 5) by lia.
  destruct Hrow as [->|[->|[->|[->|[->| ->]]]]];
    destruct Hcol as [->|[->|[->|[->|[->| ->]]]]];
    do 3 eexists;
    (split; [reflexivity|]); (split; [reflexivity|]);
    (split; [vm_compute; reflexivity|vm_compute; reflexivity]).
Qed.

Lemma R_at_terrain_witness :
  ∃ trow label r,
    terrain !! Z.to_nat 5 = Some trow ∧ trow !! Z.to_nat 0 = Some label ∧
    rewards !! label = Some r ∧ R_at (5, 0) = Ok r.
Proof. apply (R_at_terrain 5 0). unfold in_grid. cbn. lia. Defined.

(** ** The policy and the training loop *)

Section Policy.
Context {num rng : Type} `{PyNum num} `{RandomSource num rng}.
Context `{!PyNumOrder num} `{!RandomSourceLaws num rng}.

(** X9: on a well-formed table and a state index in 0..35 the
    epsilon-greedy policy never raises: it returns an action of 0..3 and
    the state [get_next_state] gives for it, again in 0..35.  When the
    uniform draw is not below epsilon, the action is one of greatest
    Q-value in the row of the state, ties included. *)
Theorem get_next_state_eg_choice Q_matrix s epsilon (g : rng) :
  wf_Q Q_matrix → 0 ≤ s ≤ 35 →
  ∃ a g' q_row qa,
    get_next_state_eg Q_matrix s epsilon g = Ok (get_next_state s a, a, g') ∧
    0 ≤ a ≤ 3 ∧ 0 ≤ get_next_state s a ≤ 35 ∧
    Q_matrix !! Z.to_nat s = Some q_row ∧ q_row !! Z.to_nat a = Some qa ∧
    (num_lt (random_uniform g).1 epsilon = false →
       ∀ qb, qb ∈ q_row → num_lt qa qb = false).
Proof.
  intros Hwf Hs.
  destruct (wf_Q_row Q_matrix s Hwf Hs) as (q_row & Hrow & Hlen).
  assert (Hentry : ∀ a, 0 ≤ a ≤ 3 → ∃ qa, q_row !! Z.to_nat a = Some qa).
  { intros a Ha. apply lookup_lt_is_Some_2. lia. }
  unfold get_next_state_eg.
  destruct (random_uniform g) as [u g1]. cbn [fst].
  assert (Hany : ∃ a g', random_choice (range 4) g1 = Ok (a, g') ∧ 0 ≤ a ≤ 3).
  { destruct (random_choice_ok (range 4) g1) as [a Ha]; [done|].
    exists a, (random_below (length (range 4)) g1).2. split; [done|].
    apply random_choice_elem in Ha. apply elem_of_seqZ in Ha. lia. }
  destruct (num_lt u epsilon) eqn:Hu.
  - destruct Hany as (a & g' & -> & Ha). res_simpl.
    destruct (Hentry a Ha) as [qa Hqa].
    exists a, g', q_row, qa. repeat split; try done; try lia;
      by apply get_next_state_range.
  - rewrite (py_index_lookup _ _ _ (proj1 Hs) Hrow). res_simpl.
    destruct (py_max_ok q_row) as [m Hm]; [by destruct q_row|].
    rewrite Hm. res_simpl.
    apply py_max_greatest in Hm as [Hin Hgreat].
    assert (Hself : num_eq m m = true) by (by rewrite num_eq_spec, num_lt_irrefl).
    destruct ((filter _ (enumerate q_row)).*1) as [|b0 bs] eqn:Hbest.
    { apply list_elem_of_lookup_1 in Hin as [i Hi].
      assert (Hmem : Z.of_nat i ∈ (filter (λ aq : Z * num, num_eq aq.2 m = true)
                                     (enumerate q_row)).*1).
      { apply elem_of_best_actions. by exists i, m. }
      rewrite Hbest in Hmem. by apply elem_of_nil in Hmem. }
    destruct (random_choice_ok (b0 :: bs) g1) as [x Hx]; [done|].
    rewrite Hx. res_simpl. apply random_choice_elem in Hx. rewrite <- Hbest in Hx.
    apply elem_of_best_actions in Hx as (i & q & -> & Hi & Heq).
    pose proof (lookup_lt_Some _ _ _ Hi) as Hlt.
    eexists (Z.of_nat i), _, q_row, q.
    split; [done|]. split; [lia|]. split; [by apply get_next_state_range|].
    split; [done|]. split; [by rewrite Nat2Z.id|].
    intros _ qb Hqb. rewrite num_eq_spec in Heq.
    apply andb_true_iff in Heq as [Hqm _]. apply negb_true_iff in Hqm.
    destruct (num_lt q qb) eqn:Hqqb; [|done].
    pose proof (Hgreat qb Hqb) as Hmqb.
    by rewrite (num_lt_cotrans q m qb Hqqb Hqm) in Hmqb.
Qed.

(** A training step leaves every row but the one of its state. *)
Lemma q_step_other_rows epsilon alpha gamma Q_matrix s (g : rng) Q_matrix' s' g' :
  wf_Q Q_matrix → 0 ≤ s ≤ 35 →
  q_step epsilon alpha gamma Q_matrix s g = Ok (Q_matrix', s', g') →
  wf_Q Q_matrix' ∧ 0 ≤ s' ≤ 35 ∧
  ∀ s2 : nat, s2 ≠ Z.to_nat s → Q_matrix' !! s2 = Q_matrix !! s2.
Proof.
  intros Hwf Hs Hstep.
  destruct (q_step_reads epsilon Q_matrix s g Hwf Hs)
    as (s1 & a & g1 & r & next_q_values & m & q_row & q_old
        & Heg & Hs1 & Ha & Hr & Hnext & Hm & Hrow & Hold).
  rewrite (q_step_eq epsilon alpha gamma Q_matrix s g s1 a g1 r next_q_values m q_row q_old)
    in Hstep; [|lia..|done|done|done|done|done|done].
  injection Hstep as <- <- <-.
  split; [by apply wf_Q_insert|]. split; [done|].
  intros s2 Hne. by apply list_lookup_insert_ne.
Qed.

Lemma q_episode_end_row steps epsilon alpha gamma : ∀ Q_matrix s (g : rng) Q_matrix' g',
  wf_Q Q_matrix → 0 ≤ s ≤ 35 →
  q_episode steps 30 epsilon alpha gamma Q_matrix s g = Ok (Q_matrix', g') →
  wf_Q Q_matrix' ∧ Q_matrix' !! 30%nat = Q_matrix !! 30%nat.
Proof.
  induction steps as [|steps IH]; intros Q_matrix s g Q_matrix' g' Hwf Hs;
    cbn [q_episode].
  { by intros [= <- _]. }
  case_decide as Hend; [by intros [= <- _]|].
  destruct (q_step epsilon alpha gamma Q_matrix s g) as [[[Q1 s1] g1]| |] eqn:Hstep;
    [|done..]. res_simpl.
  destruct (q_step_other_rows _ _ _ _ _ _ _ _ _ Hwf Hs Hstep) as (Hwf1 & Hs1 & Hrows).
  intros Hrest. destruct (IH _ _ _ _ _ Hwf1 Hs1 Hrest) as [Hwf' Hrow].
  split; [done|]. rewrite Hrow. apply Hrows. lia.
Qed.

Lemma q_episodes_end_row episodes epsilon alpha gamma max_steps :
  ∀ Q_matrix (g : rng) Q_matrix' g',
  wf_Q Q_matrix →
  q_episodes episodes 30 epsilon alpha gamma max_steps Q_matrix g = Ok (Q_matrix', g') →
  wf_Q Q_matrix' ∧ Q_matrix' !! 30%nat = Q_matrix !! 30%nat.
Proof.
  induction episodes as [|episodes IH]; intros Q_matrix g Q_matrix' g' Hwf;
    cbn [q_episodes].
  { by intros [= <- _]. }
  destruct (start_choice_ok 30 g) as (s & g1 & -> & Hs). res_simpl.
  destruct (q_episode _ _ _ _ _ _ _ _) as [[Q1 g2]| |] eqn:Hep; [|done..]. res_simpl.
  destruct (q_episode_end_row _ _ _ _ _ _ _ _ _ Hwf Hs Hep) as [Hwf1 Hrow1].
  intros Hrest. destruct (IH _ _ _ _ Hwf1 Hrest) as [Hwf' Hrow].
  split; [done|]. by rewrite Hrow.
Qed.

(** X10: training never writes the row of the end state.  When
    [q_learning] returns on a well-formed table, the table it returns is
    well-formed and its row 30 (the end state, position (5, 0)) is the row
    it was before. *)
Theorem q_learning_end_row num_episodes epsilon alpha gamma max_steps
    Q_matrix (g : rng) Q_matrix' g' :
  wf_Q Q_matrix →
  q_learning num_episodes epsilon alpha gamma max_steps Q_matrix g
    = Ok (Q_matrix', g') →
  py_getitem state_indices end_state = Ok 30 ∧
  Q_matrix' !! 30%nat = Q_matrix !! 30%nat ∧
  wf_Q Q_matrix'.
Proof.
  intros Hwf. unfold q_learning. rewrite end_state_index_eq. res_simpl.
  intros Hrun. split; [done|].
  destruct (q_episodes_end_row _ _ _ _ _ _ _ _ _ Hwf Hrun) as [Hwf' Hrow].
  by split.
Qed.

End Policy.

(** ** The greedy path *)

Lemma decode_end_state s : 0 ≤ s ≤ 35 → decode s = end_state → s = 30.
Proof.
  intros Hs Hd. pose proof (encode_decode s) as He. rewrite Hd in He.
  unfold end_state in He. cbn [fst snd] in He. lia.
Qed.

Lemma greedy_candidates_3 : greedy_candidates 3 = [(1, 9); (2, 2); (3, 4)].
Proof. vm_compute. reflexivity. Qed.

Lemma greedy_candidates_9 : greedy_candidates 9 = [(0, 3); (1, 15); (2, 8); (3, 10)].
Proof. vm_compute. reflexivity. Qed.

Section GreedyPath.
Context {num rng : Type} `{PyNum num} `{RandomSource num rng}.
Context `{!PyNumOrder num}.

(** [max(l, key=key)] returns an item of the list when the keys evaluate. *)
Lemma max_key_from_elem {A} (key : A → res num) (l : list A) : ∀ best bk,
  (∀ x, x ∈ l → ∃ k, key x = Ok k) →
  ∃ r, max_key_from key best bk l = Ok r ∧ r ∈ best :: l.
Proof.
  induction l as [|x l IH]; intros best bk Hkeys; cbn [max_key_from].
  { exists best. split; [done|left]. }
  destruct (Hkeys x (list_elem_of_here _ _)) as [k ->]. res_simpl.
  assert (Hkeys' : ∀ y, y ∈ l → ∃ k, key y = Ok k) by (intros y Hy; apply Hkeys; by right).
  destruct (num_lt bk k).
  - destruct (IH x k Hkeys') as (r & -> & Hr). exists r. split; [done|by right].
  - destruct (IH best bk Hkeys') as (r & -> & Hr). exists r. split; [done|].
    apply elem_of_cons in Hr as [->|Hr]; [left|by do 2 right].
Qed.

(** One pass through the loop body: a step to the state of a possible
    action. *)
Lemma greedy_body_step (Q_matrix : list (list num)) st :
  wf_Q Q_matrix → 0 ≤ current_state_index st ≤ 35 →
  ∃ a r,
    a ∈ get_possible_actions (current_state_index st) ∧
    R_at (decode (get_next_state (current_state_index st) a)) = Ok r ∧
    greedy_body Q_matrix st =
      Ok (Continue (GreedyState
            (get_next_state (current_state_index st) a)
            (path st ++ [decode (get_next_state (current_state_index st) a)])
            (total_reward st + r) (stdout st))).
Proof.
  intros Hwf Hs. set (s := current_state_index st) in *.
  destruct (wf_Q_row Q_matrix s Hwf Hs) as (q_values & Hrow & Hlen).
  set (key := λ action : Z * Z, py_index q_values action.1).
  assert (Hkeys : ∀ x, x ∈ greedy_candidates s → ∃ k, key x = Ok k).
  { intros [b n] Hx. apply elem_of_greedy_candidates in Hx as [Hb _].
    cbn [fst] in Hb. apply get_possible_actions_range in Hb.
    destruct (lookup_lt_is_Some_2 q_values (Z.to_nat b)) as [qb Hqb]; [lia|].
    exists qb. unfold key. cbn [fst]. apply py_index_lookup; [lia|done]. }
  destruct (greedy_candidates s) as [|c cs] eqn:Hcands.
  { exfalso. apply (get_possible_actions_nonempty s).
    rewrite <- greedy_candidates_actions. by rewrite Hcands. }
  destruct (Hkeys c (list_elem_of_here _ _)) as [kc Hkc].
  destruct (max_key_from_elem key cs c kc) as ([a n] & Hmax & Hin).
  { intros x Hx. apply Hkeys. by right. }
  rewrite <- Hcands in Hin.
  apply elem_of_greedy_candidates in Hin as [Ha Hn]. cbn [fst snd] in Ha, Hn. subst n.
  destruct (R_at_ok (decode (get_next_state s a))) as [r Hr].
  { apply decode_in_grid. by apply get_next_state_range. }
  exists a, r. split; [done|]. split; [done|].
  unfold greedy_body. fold s. rewrite (py_index_lookup _ _ _ (proj1 Hs) Hrow). res_simpl.
  rewrite Hcands. unfold greedy_select. cbn [py_max_key]. fold key.
  change (py_index q_values c.1) with (key c). rewrite Hkc. res_simpl.
  rewrite Hmax. res_simpl. rewrite Hr. res_simpl. done.
Qed.

Lemma greedy_cond_eq st :
  greedy_cond st = Ok (bool_decide (current_state_index st ≠ 30)).
Proof. unfold greedy_cond. by rewrite end_state_index_eq. Qed.

Lemma greedy_loop_path (Q_matrix : list (list num)) fuel : ∀ st st',
  wf_Q Q_matrix → 0 ≤ current_state_index st ≤ 35 →
  while_loop fuel greedy_cond (greedy_body Q_matrix) st = Ok st' →
  ∃ entered t,
    path st' = path st ++ entered ∧
    steps_from (decode (current_state_index st)) entered ∧
    last (decode (current_state_index st) :: entered) = Some end_state ∧
    route_reward entered = Ok t ∧ total_reward st' = total_reward st + t ∧
    stdout st' = stdout st ∧ current_state_index st' = 30.
Proof.
  intros st st' Hwf. revert st st'.
  assert (Hstop : ∀ st st', current_state_index st = 30 → Ok st = Ok st' →
    ∃ entered t,
      path st' = path st ++ entered ∧
      steps_from (decode (current_state_index st)) entered ∧
      last (decode (current_state_index st) :: entered) = Some end_state ∧
      route_reward entered = Ok t ∧ total_reward st' = total_reward st + t ∧
      stdout st' = stdout st ∧ current_state_index st' = 30).
  { intros st st' Hcur [= <-]. exists [], 0. rewrite app_nil_r, Hcur.
    repeat split; try done. lia. }
  induction fuel as [|fuel IH]; intros st st' Hs; cbn [while_loop];
    rewrite greedy_cond_eq; res_simpl; case_bool_decide as Hend;
    try done; try (apply Hstop; lia).
  destruct (greedy_body_step Q_matrix st Hwf Hs) as (a & r & Ha & Hr & ->). res_simpl.
  set (next := get_next_state (current_state_index st) a) in *.
  assert (Hnext : 0 ≤ next ≤ 35) by (by apply get_next_state_range).
  intros Hloop. apply IH in Hloop as (entered & t & Hpath & Hsteps & Hlast & Ht & Htot & Hout & Hcur);
    [|done].
  cbn [path total_reward stdout current_state_index] in *.
  exists (decode next :: entered), (r + t).
  split; [by rewrite Hpath, <- app_assoc|]. split.
  { cbn [steps_from]. split; [|split; [|split; [by apply decode_in_grid|done]]].
    - intros Hd. by apply decode_end_state in Hd.
    - by apply get_next_state_moved. }
  split; [by rewrite last_cons_cons|].
  split; [cbn [route_reward]; by rewrite Hr, Ht|].
  split; [lia|done].
Qed.

(** X11: when [greedy_path] returns on a well-formed table, the route is a
    path: it starts at the start state, each step goes from a cell that is
    not the end state to an adjacent cell of the grid, the last cell is the
    end state and the route has at least 9 cells; the total is the sum of
    the rewards of the cells entered, and nothing was printed.  A larger
    step budget gives the same result. *)
Theorem greedy_path_is_path fuel (Q_matrix : list (list num)) st :
  wf_Q Q_matrix →
  greedy_path fuel Q_matrix = Ok st →
  ∃ entered,
    path st = start_state :: entered ∧
    steps_from start_state entered ∧
    last (path st) = Some end_state ∧
    (9 ≤ length (path st))%nat ∧
    route_reward entered = Ok (total_reward st) ∧
    stdout st = [] ∧
    (∀ fuel', (fuel ≤ fuel')%nat → greedy_path fuel' Q_matrix = Ok st).
Proof.
  intros Hwf. unfold greedy_path. rewrite start_state_index_eq. res_simpl.
  intros Hloop. pose proof Hloop as Hrun.
  apply greedy_loop_path in Hloop as (entered & t & Hpath & Hsteps & Hlast & Ht & Htot & Hout & _);
    [|done|cbn; lia].
  cbn [path total_reward stdout current_state_index] in *.
  change (decode 3) with start_state in *.
  assert (Hstart : in_grid start_state) by (unfold in_grid; cbn; lia).
  pose proof (steps_from_length _ _ Hstart Hsteps Hlast) as Hlen.
  unfold steps_to_end, start_state in Hlen. cbn in Hlen.
  exists entered. rewrite Hpath. cbn [app length].
  split; [done|]. split; [done|]. split; [done|]. split; [lia|].
  split; [by rewrite Htot, Z.add_0_l|]. split; [done|].
  intros fuel' Hfuel. by eapply while_loop_fuel_mono.
Qed.

(** X12: on the table as [__init__] leaves it, all zeros, [greedy_path]
    never returns: from the start state it steps down to (1, 3) and from
    there back up, so every step budget runs out. *)
Theorem greedy_path_untrained fuel :
  greedy_path fuel (Q_matrix_init (num:=num)) = OutOfFuel.
Proof.
  assert (Hrow : ∀ s, 0 ≤ s ≤ 35 →
    py_index (Q_matrix_init (num:=num)) s = Ok (replicate 4 (of_int 0))).
  { intros s Hs. apply py_index_lookup; [lia|].
    unfold Q_matrix_init. apply lookup_replicate_2. lia. }
  assert (Hz : num_lt (of_int 0) (of_int 0) = false) by apply num_lt_irrefl.
  assert (H3 : ∀ st, current_state_index st = 3 →
    greedy_body Q_matrix_init st =
      Ok (Continue (GreedyState 9 (path st ++ [(1, 3)]) (total_reward st + -300) (stdout st)))).
  { intros st Hcur. unfold greedy_body. rewrite Hcur, Hrow by lia. res_simpl.
    rewrite greedy_candidates_3. unfold greedy_select. cbn [py_max_key max_key_from fst].
    replace (py_index (replicate 4 (of_int 0)) 1) with (Ok (of_int 0 : num)) by done.
    replace (py_index (replicate 4 (of_int 0)) 2) with (Ok (of_int 0 : num)) by done.
    replace (py_index (replicate 4 (of_int 0)) 3) with (Ok (of_int 0 : num)) by done.
    res_simpl. rewrite !Hz. res_simpl.
    replace (R_at (decode 9)) with (Ok (-300)) by (vm_compute; reflexivity).
    res_simpl. done. }
  assert (H9 : ∀ st, current_state_index st = 9 →
    greedy_body Q_matrix_init st =
      Ok (Continue (GreedyState 3 (path st ++ [(0, 3)]) (total_reward st + 10) (stdout st)))).
  { intros st Hcur. unfold greedy_body. rewrite Hcur, Hrow by lia. res_simpl.
    rewrite greedy_candidates_9. unfold greedy_select. cbn [py_max_key max_key_from fst].
    replace (py_index (replicate 4 (of_int 0)) 0) with (Ok (of_int 0 : num)) by done.
    replace (py_index (replicate 4 (of_int 0)) 1) with (Ok (of_int 0 : num)) by done.
    replace (py_index (replicate 4 (of_int 0)) 2) with (Ok (of_int 0 : num)) by done.
    replace (py_index (replicate 4 (of_int 0)) 3) with (Ok (of_int 0 : num)) by done.
    res_simpl. rewrite !Hz. res_simpl.
    replace (R_at (decode 3)) with (Ok 10) by (vm_compute; reflexivity).
    res_simpl. done. }
  assert (Hloop : ∀ fuel st,
    current_state_index st = 3 ∨ current_state_index st = 9 →
    while_loop fuel greedy_cond (greedy_body Q_matrix_init) st = OutOfFuel).
  { clear fuel. induction fuel as [|fuel IH]; intros st Hcur; cbn [while_loop];
      rewrite greedy_cond_eq; res_simpl;
      (rewrite bool_decide_true by (destruct Hcur as [-> | ->]; lia)); [done|].
    destruct Hcur as [Hcur|Hcur].
    - rewrite (H3 st Hcur). res_simpl. apply IH. by right.
    - rewrite (H9 st Hcur). res_simpl. apply IH. by left. }
  unfold greedy_path. rewrite start_state_index_eq. res_simpl.
  apply Hloop. by left.
Qed.

End GreedyPath.

(** ** The further properties at concrete inputs *)

Lemma get_next_state_mc_step_witness :
  in_grid (0, 3) ∧
  ∃ a p' g',
    get_next_state_mc (num:=Q) (0, 3) [1%nat] = Ok (p', g') ∧
    a ∈ get_possible_actions 3 ∧ p' ≠ (0, 3) ∧ adjacent (0, 3) p'.
Proof.
  assert (Hp : in_grid (0, 3)) by (unfold in_grid; cbn; lia). split; [done|].
  destruct (get_next_state_mc_step (num:=Q) (0, 3) [1%nat] Hp)
    as (a & p' & g' & Hstep & Ha & _ & Hne & Hadj & _).
  by exists a, p', g'.
Defined.

Lemma mc_walk_is_path_witness :
  ∃ entered,
    [(0, 3); (0, 2); (0, 1); (0, 0); (1, 0); (2, 0); (3, 0); (4, 0); (5, 0)]
      = start_state :: entered ∧
    steps_from start_state entered.
Proof.
  destruct (mc_walk_is_path (num:=Q) 20 demo_script (-1500)
              [(0, 3); (0, 2); (0, 1); (0, 0); (1, 0); (2, 0); (3, 0); (4, 0); (5, 0)]
              [0; 2; 2; 2; 1; 1; 1; 1]%nat)
    as (entered & Hroute & Hsteps & _).
  { vm_compute. reflexivity. }
  by exists entered.
Defined.

Lemma monte_carlo_returns_path_witness :
  1 ≤ 2 ∧
  ∃ entered t,
    Some [(0, 3); (1, 3); (1, 2); (1, 1); (1, 0); (2, 0); (3, 0); (4, 0); (5, 0)]
      = Some (start_state :: entered) ∧
    Fin (-1190) = Fin t ∧ steps_from start_state entered ∧ route_reward entered = Ok t.
Proof.
  assert (Hn : 1 ≤ 2) by lia. split; [done|].
  destruct (monte_carlo_returns_path (num:=Q) 20 2 demo_script
           (MCState (Some [(0, 3); (1, 3); (1, 2); (1, 1); (1, 0);
                           (2, 0); (3, 0); (4, 0); (5, 0)]) (Fin (-1190)) []) Hn)
    as (entered & t & Hroute & Hhigh & Hsteps & _ & _ & Ht).
  { vm_compute. reflexivity. }
  by exists entered, t.
Defined.

Lemma get_next_state_eg_choice_witness :
  wf_Q demo_Q ∧ 0 ≤ 3 ≤ 35 ∧
  ∃ a g' qa,
    get_next_state_eg demo_Q 3 0%Q [7; 3]%nat = Ok (get_next_state 3 a, a, g') ∧
    [0; 0; 0; 4]%Q !! Z.to_nat a = Some qa ∧
    (∀ qb, qb ∈ [0; 0; 0; 4]%Q → num_lt qa qb = false).
Proof.
  assert (Hs : 0 ≤ 3 ≤ 35) by lia. split; [apply demo_Q_wf|]. split; [done|].
  destruct (get_next_state_eg_choice (num:=Q) demo_Q 3 0%Q [7; 3]%nat demo_Q_wf Hs)
    as (a & g' & q_row & qa & Heg & _ & _ & Hrow & Hqa & Hmax).
  vm_compute in Hrow. injection Hrow as <-.
  exists a, g', qa. split; [done|]. split; [done|]. apply Hmax. reflexivity.
Defined.

Lemma q_learning_end_row_witness :
  wf_Q (Q_matrix_init (num:=Q)) ∧
  ∃ Q_matrix' g',
    q_learning 2 (1 # 2)%Q (9 # 10)%Q (9 # 10)%Q 3 (Q_matrix_init (num:=Q))
      [29; 10; 0; 90; 0; 0; 3; 10; 1]%nat = Ok (Q_matrix', g') ∧
    Q_matrix' !! 30%nat = Some [0; 0; 0; 0]%Q ∧
    Q_matrix' ≠ Q_matrix_init.
Proof.
  pose proof (Q_matrix_init_wf (num:=Q)) as Hwf. split; [done|].
  destruct (q_learning 2 (1 # 2)%Q (9 # 10)%Q (9 # 10)%Q 3 (Q_matrix_init (num:=Q))
              [29; 10; 0; 90; 0; 0; 3; 10; 1]%nat) as [[Q' g']| |] eqn:Hrun.
  - exists Q', g'. split; [done|].
    destruct (q_learning_end_row (num:=Q) _ _ _ _ _ _ _ _ _ Hwf Hrun) as (_ & Hrow & _).
    split; [by rewrite Hrow|].
    intros ->. vm_compute in Hrun. discriminate.
  - vm_compute in Hrun. discriminate.
  - vm_compute in Hrun. discriminate.
Defined.

Lemma greedy_path_is_path_witness :
  wf_Q demo_Q_trained ∧
  ∃ entered,
    [(0, 3); (1, 3); (2, 3); (3, 3); (4, 3); (5, 3); (5, 2); (5, 1); (5, 0)]
      = start_state :: entered ∧
    steps_from start_state entered ∧
    route_reward entered = Ok (-1080).
Proof.
  assert (Hwf : wf_Q demo_Q_trained).
  { unfold demo_Q_trained. split; [done|]. by apply Forall_replicate. }
  split; [done|].
  destruct (greedy_path_is_path (num:=Q) 20 demo_Q_trained
              (GreedyState 30
                 [(0, 3); (1, 3); (2, 3); (3, 3); (4, 3); (5, 3); (5, 2); (5, 1); (5, 0)]
                 (-1080) []) Hwf)
    as (entered & Hpath & Hsteps & _ & _ & Ht & _).
  { vm_compute. reflexivity. }
  by exists entered.
Defined.

Lemma greedy_path_untrained_witness :
  greedy_path 200 (Q_matrix_init (num:=Q)) = OutOfFuel.
Proof. apply (greedy_path_untrained (num:=Q) 200). Defined.
